(** * pynbs: a shallow embedding of the NBS codec in [src/pynbs.py]

    The development follows the source top to bottom: the three [struct]
    formats, the value records, [File] with [update_header] and [__iter__],
    the [Parser] (a state-and-exception monad over the bytes still unread),
    the [Writer] (an output-and-exception monad over the bytes written), and
    then the properties of the codec.

    Python integers are [Z]; a [str] is its list of code points and
    [str.encode]/[bytes.decode] are UTF-8 (the Python 3 reading of the
    source); [tempo] is a binary64 float. *)

From Stdlib Require Import ZArith NArith List Lia Bool Sorted Permutation.
From Stdlib Require Import Strings.Byte.
From Stdlib Require Import Floats.
Import ListNotations.
Local Open Scope Z_scope.

(** ** Exceptions and results *)

(** The exceptions the codec can raise.  [StructError] is [struct.error]:
    raised by [Struct.pack] on a value out of range and by [Struct.unpack] on
    a buffer that is not exactly [size] bytes long. *)
Inductive error : Type :=
| StructError
| DeprecationWarning
| UnicodeDecodeError
| UnicodeEncodeError
| ValueError
| OverflowError.

Inductive result (A : Type) : Type :=
| Ok (a : A)
| Err (e : error).
Arguments Ok {A} a.
Arguments Err {A} e.

(** ** Bytes *)

Definition byte_of_N (n : N) : byte :=
  match Byte.of_N n with Some b => b | None => x00 end.

Definition byte_val (b : byte) : Z := Z.of_N (Byte.to_N b).

Definition byte_of (z : Z) : byte := byte_of_N (Z.to_N (z mod 256)).

(** Little-endian digits of an unsigned value, and back. *)
Fixpoint le_bytes (n : nat) (u : Z) : list byte :=
  match n with
  | O => []
  | S k => byte_of u :: le_bytes k (u / 256)
  end.

Fixpoint le_value (bs : list byte) : Z :=
  match bs with
  | [] => 0
  | b :: rest => byte_val b + 256 * le_value rest
  end.

(** ** [struct.Struct]: [BYTE = Struct('<b')], [SHORT = Struct('<h')],
    [INT = Struct('<i')] -- little-endian, signed. *)

Inductive Struct : Type := BYTE | SHORT | INT.

Definition size (fmt : Struct) : Z :=
  match fmt with BYTE => 1 | SHORT => 2 | INT => 4 end.

Definition bits (fmt : Struct) : Z := 8 * size fmt.
Definition min_value (fmt : Struct) : Z := - 2 ^ (bits fmt - 1).
Definition max_value (fmt : Struct) : Z := 2 ^ (bits fmt - 1) - 1.

Definition in_range (fmt : Struct) (value : Z) : bool :=
  (min_value fmt <=? value) && (value <=? max_value fmt).

(** [fmt.pack(value)]: two's complement, or [struct.error] out of range. *)
Definition pack (fmt : Struct) (value : Z) : result (list byte) :=
  if in_range fmt value
  then Ok (le_bytes (Z.to_nat (size fmt)) (value mod 2 ^ bits fmt))
  else Err StructError.

Definition to_signed (fmt : Struct) (u : Z) : Z :=
  if u <? 2 ^ (bits fmt - 1) then u else u - 2 ^ bits fmt.

(** [fmt.unpack(data)[0]]: [struct.error] unless [data] has [fmt.size] bytes. *)
Definition unpack (fmt : Struct) (data : list byte) : result Z :=
  if Z.of_nat (length data) =? size fmt
  then Ok (to_signed fmt (le_value data))
  else Err StructError.

(** ** Text: [str] as code points, UTF-8 for [encode()] and [decode()] *)

Definition str : Type := list N.

Local Open Scope N_scope.

Definition utf8_encode_char (c : N) : result (list byte) :=
  if c <? 0x80 then Ok [byte_of_N c]
  else if c <? 0x800 then
    Ok [byte_of_N (0xC0 + c / 0x40); byte_of_N (0x80 + c mod 0x40)]
  else if c <? 0x10000 then
    if (0xD800 <=? c) && (c <=? 0xDFFF) then Err UnicodeEncodeError
    else Ok [byte_of_N (0xE0 + c / 0x1000);
             byte_of_N (0x80 + (c / 0x40) mod 0x40);
             byte_of_N (0x80 + c mod 0x40)]
  else if c <? 0x110000 then
    Ok [byte_of_N (0xF0 + c / 0x40000);
        byte_of_N (0x80 + (c / 0x1000) mod 0x40);
        byte_of_N (0x80 + (c / 0x40) mod 0x40);
        byte_of_N (0x80 + c mod 0x40)]
  else Err UnicodeEncodeError.

(** [value.encode()] *)
Fixpoint encode (value : str) : result (list byte) :=
  match value with
  | [] => Ok []
  | c :: rest =>
      match utf8_encode_char c with
      | Err e => Err e
      | Ok bs => match encode rest with
                 | Err e => Err e
                 | Ok bs' => Ok (bs ++ bs')
                 end
      end
  end.

Definition in_span (lo x hi : N) : bool := (lo <=? x) && (x <=? hi).

(** Low six bits of a continuation byte. *)
Definition cont (b : byte) : N := Byte.to_N b - 0x80.

(** [data.decode()]: strict UTF-8 (well-formed byte sequences only). *)
Fixpoint decode (data : list byte) : result str :=
  match data with
  | [] => Ok []
  | b0 :: r0 =>
      let n0 := Byte.to_N b0 in
      if n0 <? 0x80 then
        match decode r0 with
        | Ok s => Ok (n0 :: s)
        | Err e => Err e
        end
      else
        match r0 with
        | [] => Err UnicodeDecodeError
        | b1 :: r1 =>
            let n1 := Byte.to_N b1 in
            if in_span 0xC2 n0 0xDF then
              if in_span 0x80 n1 0xBF then
                match decode r1 with
                | Ok s => Ok ((n0 - 0xC0) * 0x40 + cont b1 :: s)
                | Err e => Err e
                end
              else Err UnicodeDecodeError
            else
              match r1 with
              | [] => Err UnicodeDecodeError
              | b2 :: r2 =>
                  let n2 := Byte.to_N b2 in
                  if in_span 0xE0 n0 0xEF then
                    if in_span (if n0 =? 0xE0 then 0xA0 else 0x80) n1
                               (if n0 =? 0xED then 0x9F else 0xBF)
                       && in_span 0x80 n2 0xBF
                    then
                      match decode r2 with
                      | Ok s => Ok ((n0 - 0xE0) * 0x1000 + cont b1 * 0x40
                                    + cont b2 :: s)
                      | Err e => Err e
                      end
                    else Err UnicodeDecodeError
                  else
                    match r2 with
                    | [] => Err UnicodeDecodeError
                    | b3 :: r3 =>
                        let n3 := Byte.to_N b3 in
                        if in_span 0xF0 n0 0xF4
                           && in_span (if n0 =? 0xF0 then 0x90 else 0x80) n1
                                      (if n0 =? 0xF4 then 0x8F else 0xBF)
                           && in_span 0x80 n2 0xBF
                           && in_span 0x80 n3 0xBF
                        then
                          match decode r3 with
                          | Ok s => Ok ((n0 - 0xF0) * 0x40000
                                        + cont b1 * 0x1000
                                        + cont b2 * 0x40 + cont b3 :: s)
                          | Err e => Err e
                          end
                        else Err UnicodeDecodeError
                    end
              end
        end
  end.

Local Close Scope N_scope.

(** A string all of whose characters are ASCII. *)
Definition ascii (s : str) : Prop := Forall (fun c => (c < 0x80)%N) s.

(** ** Floats: [tempo] *)

(** [float(k)] for an integer of magnitude below [2^63]; the codec applies it
    to 16-bit values and to the constant 100 only. *)
Definition float_of_int (k : Z) : float :=
  if k <? 0
  then PrimFloat.opp (PrimFloat.of_uint63 (Uint63.of_Z (- k)))
  else PrimFloat.of_uint63 (Uint63.of_Z k).

(** [int(x)]: truncation towards zero; [ValueError] on a NaN and
    [OverflowError] on an infinity. *)
Definition int_of_float (x : float) : result Z :=
  match Prim2SF x with
  | S754_zero _ => Ok 0
  | S754_finite s m e =>
      let a := if 0 <=? e then Z.shiftl (Z.pos m) e
               else Z.shiftr (Z.pos m) (- e) in
      Ok (if s then - a else a)
  | S754_infinity _ => Err OverflowError
  | S754_nan => Err ValueError
  end.

(** ** Value records *)

Record Note : Type := mkNote
  { tick : Z; layer : Z; instrument : Z; key : Z }.

Record Layer : Type := mkLayer
  { layer_id : Z; layer_name : str; volume : Z; panning : Z }.

Record Instrument : Type := mkInstrument
  { instrument_id : Z; instrument_name : str; file : str; pitch : Z;
    press_key : bool }.

Record Header : Type := mkHeader
  { version : Z;
    default_instruments : Z;
    song_length : Z;
    song_layers : Z;
    song_name : str;
    song_author : str;
    original_author : str;
    description : str;
    tempo : float;
    auto_save : bool;
    auto_save_duration : Z;
    time_signature : Z;
    minutes_spent : Z;
    left_clicks : Z;
    right_clicks : Z;
    blocks_added : Z;
    blocks_removed : Z;
    song_origin : str }.

(** [Header()] with no keyword: the defaults of [Header.__init__]. *)
Definition default_header : Header :=
  {| version := 3; default_instruments := 16; song_length := 0;
     song_layers := 0; song_name := []; song_author := [];
     original_author := []; description := [];
     tempo := 10%float; auto_save := false; auto_save_duration := 10;
     time_signature := 4; minutes_spent := 0; left_clicks := 0;
     right_clicks := 0; blocks_added := 0; blocks_removed := 0;
     song_origin := [] |}.

Definition set_song_length (h : Header) (v : Z) : Header :=
  mkHeader (version h) (default_instruments h) v (song_layers h)
    (song_name h) (song_author h) (original_author h) (description h)
    (tempo h) (auto_save h) (auto_save_duration h) (time_signature h)
    (minutes_spent h) (left_clicks h) (right_clicks h) (blocks_added h)
    (blocks_removed h) (song_origin h).

Definition set_song_layers (h : Header) (v : Z) : Header :=
  mkHeader (version h) (default_instruments h) (song_length h) v
    (song_name h) (song_author h) (original_author h) (description h)
    (tempo h) (auto_save h) (auto_save_duration h) (time_signature h)
    (minutes_spent h) (left_clicks h) (right_clicks h) (blocks_added h)
    (blocks_removed h) (song_origin h).

(** ** [File] *)

Record File : Type := mkFile
  { header : Header;
    notes : list Note;
    layers : list Layer;
    instruments : list Instrument }.

(** [new_file()] *)
Definition new_file (h : Header) : File :=
  mkFile h [] [mkLayer 0 [] 100 100] [].

(** [File.update_header]:
    [if self.notes: self.header.song_length = self.notes[-1].tick]
    then [self.header.song_layers = len(self.layers)]. *)
Definition update_header (f : File) : File :=
  let h1 := match notes f with
            | [] => header f
            | n :: ns => set_song_length (header f) (tick (last ns n))
            end in
  mkFile (set_song_layers h1 (Z.of_nat (length (layers f))))
         (notes f) (layers f) (instruments f).

(** [sorted(l, key=key)] and [l.sort(key=key)]: a stable sort, here by
    insertion from the right (an element goes before the elements of equal
    key that followed it). *)
Fixpoint insert_by {A : Type} (key : A -> Z) (x : A) (l : list A) : list A :=
  match l with
  | [] => [x]
  | y :: l' => if key x <=? key y then x :: y :: l'
               else y :: insert_by key x l'
  end.

Definition sorted {A : Type} (key : A -> Z) (l : list A) : list A :=
  fold_right (insert_by key) [] l.

(** The [for] loop of [File.__iter__], with its two loop variables; the
    [yield] after the loop is the [[]] case. *)
Fixpoint iter_loop (ns : list Note) (current_tick : Z) (chord : list Note)
  : list (Z * list Note) :=
  match ns with
  | [] => [(current_tick, chord)]
  | note :: rest =>
      if tick note =? current_tick
      then iter_loop rest current_tick (chord ++ [note])
      else (current_tick, sorted layer chord)
             :: iter_loop rest (tick note) [note]
  end.

(** [File.__iter__], as the list of the pairs it yields. *)
Definition File_iter (f : File) : list (Z * list Note) :=
  match notes f with
  | [] => []
  | first :: _ => iter_loop (sorted tick (notes f)) (tick first) []
  end.

(** ** [Parser]: state (the bytes not yet read) and exceptions.  The state
    survives an exception, as the position of a Python stream does. *)

Definition buffer : Type := list byte.

Definition Parser (A : Type) : Type := buffer -> result A * buffer.

Definition ret {A : Type} (a : A) : Parser A := fun buf => (Ok a, buf).

Definition raise {A : Type} (e : error) : Parser A := fun buf => (Err e, buf).

Definition lift {A : Type} (r : result A) : Parser A := fun buf => (r, buf).

Definition bind {A B : Type} (p : Parser A) (k : A -> Parser B) : Parser B :=
  fun buf =>
    match p buf with
    | (Ok a, buf') => k a buf'
    | (Err e, buf') => (Err e, buf')
    end.

Declare Scope parser_scope.
Delimit Scope parser_scope with parser.
Notation "x <- p ;; k" := (bind p (fun x => k))
  (at level 61, p at next level, right associativity) : parser_scope.

(** [self.buffer.read(n)] on a binary file opened for reading: at most [n]
    bytes; everything left when [n = -1]; [ValueError] below [-1]. *)
Definition read (n : Z) : Parser (list byte) :=
  fun buf =>
    if n <? -1 then (Err ValueError, buf)
    else if n =? -1 then (Ok buf, [])
    else (Ok (firstn (Z.to_nat n) buf), skipn (Z.to_nat n) buf).

Definition read_numeric (fmt : Struct) : Parser Z :=
  (data <- read (size fmt) ;; lift (unpack fmt data))%parser.

Definition read_string : Parser str :=
  (length <- read_numeric INT ;;
   data <- read length ;;
   lift (decode data))%parser.

(** One resumption of the generator [Parser.jump] whose accumulator holds
    [value]: [None] when it reads 0 and ends, the value it yields otherwise. *)
Definition jump_next (value : Z) : Parser (option Z) :=
  (jump <- read_numeric SHORT ;;
   if jump =? 0 then ret None else ret (Some (value + jump)))%parser.

(** What a generator does when run to its end: the values it yields, how it
    ends ([Ok tt]: exhausted; [Err e]: raised [e]) and the stream it leaves. *)
Definition trace (Y : Type) : Type := (list Y * result unit * buffer)%type.

Definition yields {Y : Type} (ys : list Y) (t : trace Y) : trace Y :=
  let '(ys', r, buf) := t in (ys ++ ys', r, buf).

(** [Parser.jump] drained with nothing else reading the stream. *)
Fixpoint jump_from (fuel : nat) (value : Z) (buf : buffer)
  : option (trace Z) :=
  match fuel with
  | O => None
  | S fuel' =>
      match jump_next value buf with
      | (Err e, buf') => Some ([], Err e, buf')
      | (Ok None, buf') => Some ([], Ok tt, buf')
      | (Ok (Some value'), buf') =>
          option_map (yields [value']) (jump_from fuel' value' buf')
      end
  end.

(** A loop that reads at least two bytes per round ends within
    [length buf] rounds: with the fuel that [jump] and [parse_notes] give,
    the [None] case is never taken ([jump_some], [parse_notes_some]
    below). *)
Definition drained {Y : Type} (buf : buffer) (t : option (trace Y)) : trace Y :=
  match t with
  | Some t => t
  | None => ([], Ok tt, buf)
  end.

Definition jump (buf : buffer) : trace Z :=
  drained buf (jump_from (S (length buf)) (-1) buf).

(** The dictionary that [Parser.parse_header] returns once the marker is
    accepted, as the [Header] that [read_file] builds from it. *)
Definition header_fields : Parser Header :=
  (version <- read_numeric BYTE ;;
   default_instruments <- read_numeric BYTE ;;
   song_length <- read_numeric SHORT ;;
   song_layers <- read_numeric SHORT ;;
   song_name <- read_string ;;
   song_author <- read_string ;;
   original_author <- read_string ;;
   description <- read_string ;;
   tempo <- read_numeric SHORT ;;
   auto_save <- read_numeric BYTE ;;
   auto_save_duration <- read_numeric BYTE ;;
   time_signature <- read_numeric BYTE ;;
   minutes_spent <- read_numeric INT ;;
   left_clicks <- read_numeric INT ;;
   right_clicks <- read_numeric INT ;;
   blocks_added <- read_numeric INT ;;
   blocks_removed <- read_numeric INT ;;
   song_origin <- read_string ;;
   ret (mkHeader version default_instruments song_length song_layers
          song_name song_author original_author description
          (PrimFloat.div (float_of_int tempo) (float_of_int 100))
          (auto_save =? 1) auto_save_duration time_signature
          minutes_spent left_clicks right_clicks blocks_added
          blocks_removed song_origin))%parser.

(** [Parser.parse_header] *)
Definition parse_header : Parser Header :=
  (marker <- read_numeric SHORT ;;
   if negb (marker =? 0) then raise DeprecationWarning
   else header_fields)%parser.

(** The body of the inner loop of [parse_notes]. *)
Definition read_note (current_tick current_layer : Z) : Parser Note :=
  (instrument <- read_numeric BYTE ;;
   key <- read_numeric BYTE ;;
   ret (mkNote current_tick current_layer instrument key))%parser.

(** [for current_layer in self.jump(): yield Note(...)] at one tick;
    [value] is the accumulator of the inner [jump]. *)
Fixpoint parse_chord (fuel : nat) (current_tick value : Z) (buf : buffer)
  : option (trace Note) :=
  match fuel with
  | O => None
  | S fuel' =>
      match jump_next value buf with
      | (Err e, buf') => Some ([], Err e, buf')
      | (Ok None, buf') => Some ([], Ok tt, buf')
      | (Ok (Some current_layer), buf') =>
          match read_note current_tick current_layer buf' with
          | (Err e, buf'') => Some ([], Err e, buf'')
          | (Ok note, buf'') =>
              option_map (yields [note])
                (parse_chord fuel' current_tick current_layer buf'')
          end
      end
  end.

(** [for current_tick in self.jump(): ...]; [value] is the accumulator of
    the outer [jump]. *)
Fixpoint parse_ticks (fuel : nat) (value : Z) (buf : buffer)
  : option (trace Note) :=
  match fuel with
  | O => None
  | S fuel' =>
      match jump_next value buf with
      | (Err e, buf') => Some ([], Err e, buf')
      | (Ok None, buf') => Some ([], Ok tt, buf')
      | (Ok (Some current_tick), buf') =>
          match parse_chord fuel' current_tick (-1) buf' with
          | None => None
          | Some (ys, Err e, buf'') => Some (ys, Err e, buf'')
          | Some (ys, Ok _, buf'') =>
              option_map (yields ys) (parse_ticks fuel' current_tick buf'')
          end
      end
  end.

(** [Parser.parse_notes], run to its end. *)
Definition parse_notes (buf : buffer) : trace Note :=
  drained buf (parse_ticks (S (length buf)) (-1) buf).

(** [list(generator)]: the yielded values, unless the generator raises. *)
Definition list_of {Y : Type} (g : buffer -> trace Y) : Parser (list Y) :=
  fun buf =>
    match g buf with
    | (ys, Ok _, buf') => (Ok ys, buf')
    | (_, Err e, buf') => (Err e, buf')
    end.

(** [list(self.parse_layers(layers_count))]: [for i in range(layers_count)]
    from index [i] with [count] rounds to go. *)
Fixpoint parse_layers_from (i : Z) (count : nat) : Parser (list Layer) :=
  match count with
  | O => ret []
  | S count' =>
      (name <- read_string ;;
       volume <- read_numeric BYTE ;;
       panning <- read_numeric BYTE ;;
       rest <- parse_layers_from (i + 1) count' ;;
       ret (mkLayer i name volume panning :: rest))%parser
  end.

Definition parse_layers (layers_count : Z) : Parser (list Layer) :=
  parse_layers_from 0 (Z.to_nat layers_count).

Fixpoint parse_instruments_from (i : Z) (count : nat)
  : Parser (list Instrument) :=
  match count with
  | O => ret []
  | S count' =>
      (name <- read_string ;;
       file <- read_string ;;
       pitch <- read_numeric BYTE ;;
       press_key <- read_numeric BYTE ;;
       rest <- parse_instruments_from (i + 1) count' ;;
       ret (mkInstrument i name file pitch (press_key =? 1) :: rest))%parser
  end.

(** [list(self.parse_instruments())] *)
Definition parse_instruments : Parser (list Instrument) :=
  (count <- read_numeric BYTE ;;
   parse_instruments_from 0 (Z.to_nat count))%parser.

(** The three sections that [read_file] reads after the header. *)
Definition read_sections (header : Header) : Parser File :=
  (notes <- list_of parse_notes ;;
   layers <- parse_layers (song_layers header) ;;
   instruments <- parse_instruments ;;
   ret (mkFile header notes layers instruments))%parser.

(** [Parser.read_file] *)
Definition read_file : Parser File :=
  (header <- parse_header ;; read_sections header)%parser.

(** ** [Writer]: the bytes written so far, and exceptions.  What was written
    before an exception stays written. *)

Definition Writer (A : Type) : Type := (result A * list byte)%type.

Definition wret {A : Type} (a : A) : Writer A := (Ok a, []).

Definition write (data : list byte) : Writer unit := (Ok tt, data).

Definition wbind {A B : Type} (w : Writer A) (k : A -> Writer B) : Writer B :=
  match w with
  | (Ok a, out) => let '(r, out') := k a in (r, out ++ out')
  | (Err e, out) => (Err e, out)
  end.

Declare Scope writer_scope.
Delimit Scope writer_scope with writer.
Notation "w1 ;; w2" := (wbind w1 (fun _ => w2))
  (at level 61, right associativity) : writer_scope.

(** An argument whose evaluation can raise, evaluated before the call. *)
Definition eval {A : Type} (r : result A) : Writer A := (r, []).

Definition encode_numeric (fmt : Struct) (value : Z) : Writer unit :=
  wbind (eval (pack fmt value)) write.

Definition encode_string (value : str) : Writer unit :=
  (encode_numeric INT (Z.of_nat (length value)) ;;
   wbind (eval (encode value)) write)%writer.

(** [Writer.write_header] *)
Definition write_header (nbs_file : File) : Writer unit :=
  let header := header nbs_file in
  (encode_numeric SHORT 0 ;;
   encode_numeric BYTE (version header) ;;
   encode_numeric BYTE (default_instruments header) ;;
   encode_numeric SHORT (song_length header) ;;
   encode_numeric SHORT (song_layers header) ;;
   encode_string (song_name header) ;;
   encode_string (song_author header) ;;
   encode_string (original_author header) ;;
   encode_string (description header) ;;
   wbind (eval (int_of_float
                  (PrimFloat.mul (tempo header) (float_of_int 100))))
         (encode_numeric SHORT) ;;
   encode_numeric BYTE (Z.b2z (auto_save header)) ;;
   encode_numeric BYTE (auto_save_duration header) ;;
   encode_numeric BYTE (time_signature header) ;;
   encode_numeric INT (minutes_spent header) ;;
   encode_numeric INT (left_clicks header) ;;
   encode_numeric INT (right_clicks header) ;;
   encode_numeric INT (blocks_added header) ;;
   encode_numeric INT (blocks_removed header) ;;
   encode_string (song_origin header))%writer.

(** [for note in chord: ...] of [write_notes]. *)
Fixpoint write_chord (chord : list Note) (current_layer : Z) : Writer unit :=
  match chord with
  | [] => wret tt
  | note :: rest =>
      (encode_numeric SHORT (layer note - current_layer) ;;
       encode_numeric BYTE (instrument note) ;;
       encode_numeric BYTE (key note) ;;
       write_chord rest (layer note))%writer
  end.

(** [for tick, chord in nbs_file: ...] of [write_notes]. *)
Fixpoint write_chords (chords : list (Z * list Note)) (current_tick : Z)
  : Writer unit :=
  match chords with
  | [] => wret tt
  | (tick, chord) :: rest =>
      (encode_numeric SHORT (tick - current_tick) ;;
       write_chord chord (-1) ;;
       encode_numeric SHORT 0 ;;
       write_chords rest tick)%writer
  end.

(** [Writer.write_notes] *)
Definition write_notes (nbs_file : File) : Writer unit :=
  (write_chords (File_iter nbs_file) (-1) ;;
   encode_numeric SHORT 0)%writer.

Fixpoint write_layer_list (ls : list Layer) : Writer unit :=
  match ls with
  | [] => wret tt
  | layer :: rest =>
      (encode_string (layer_name layer) ;;
       encode_numeric BYTE (volume layer) ;;
       encode_numeric BYTE (panning layer) ;;
       write_layer_list rest)%writer
  end.

(** [Writer.write_layers] *)
Definition write_layers (nbs_file : File) : Writer unit :=
  write_layer_list (layers nbs_file).

Fixpoint write_instrument_list (l : list Instrument) : Writer unit :=
  match l with
  | [] => wret tt
  | instrument :: rest =>
      (encode_string (instrument_name instrument) ;;
       encode_string (file instrument) ;;
       encode_numeric BYTE (pitch instrument) ;;
       encode_numeric BYTE (Z.b2z (press_key instrument)) ;;
       write_instrument_list rest)%writer
  end.

(** [Writer.write_instruments] *)
Definition write_instruments (nbs_file : File) : Writer unit :=
  (encode_numeric BYTE (Z.of_nat (length (instruments nbs_file))) ;;
   write_instrument_list (instruments nbs_file))%writer.

(** [Writer.encode_file] *)
Definition encode_file (nbs_file : File) : Writer unit :=
  (write_header nbs_file ;;
   write_notes nbs_file ;;
   write_layers nbs_file ;;
   write_instruments nbs_file)%writer.

(** [File.save]: the bytes written to the file, after [update_header]. *)
Definition save (f : File) : Writer unit :=
  encode_file (update_header f).

(** ** Auxiliary notions used in the statements below *)

(** The exceptions a parser can raise lie in [E]. *)
Definition raises_only {A : Type} (E : error -> Prop) (p : Parser A) : Prop :=
  forall buf e rest, p buf = (Err e, rest) -> E e.

(** The parts of a trace. *)
Definition yielded {Y : Type} (t : trace Y) : list Y := fst (fst t).
Definition ending {Y : Type} (t : trace Y) : result unit := snd (fst t).
Definition leftover {Y : Type} (t : trace Y) : buffer := snd t.

(** The jumps that [Parser.jump] reads off a stream: its leading signed
    16-bit values, up to the first 0 or to the end of the stream. *)
Fixpoint jumps_read (buf : buffer) : list Z :=
  match buf with
  | b0 :: b1 :: rest =>
      let jump := to_signed SHORT (le_value [b0; b1]) in
      if jump =? 0 then [] else jump :: jumps_read rest
  | _ => []
  end.

(** The accumulator of [Parser.jump] after each jump, from [value]. *)
Fixpoint running (value : Z) (jumps : list Z) : list Z :=
  match jumps with
  | [] => []
  | jump :: rest => (value + jump) :: running (value + jump) rest
  end.

(** The value range of [BYTE]. *)
Definition signed_byte (v : Z) : Prop := -128 <= v <= 127.

(** A stream holding the jumps 1 and 5, the terminator, and one more byte. *)
Definition two_jumps : buffer := [x01; x00; x05; x00; x00; x00; x07].

(** The bytes that [fmt.pack(value)] returns for a value in range. *)
Definition packed (fmt : Struct) (value : Z) : list byte :=
  le_bytes (Z.to_nat (size fmt)) (value mod 2 ^ bits fmt).

(** Code points that UTF-8 encodes: everything but the surrogates. *)
Definition scalar_value (c : N) : Prop :=
  (c < 0xD800 \/ 0xDFFF < c < 0x110000)%N.

(** Strings that [encode_string] writes without an exception. *)
Definition encodable (s : str) : Prop :=
  Forall scalar_value s /\ Z.of_nat (length s) <= max_value INT.

Definition instrument_fits (i : Instrument) : Prop :=
  encodable (instrument_name i) /\ encodable (file i)
  /\ signed_byte (pitch i).

(** Notes in ascending order of tick. *)
Definition tick_ordered (ns : list Note) : Prop :=
  StronglySorted (fun a b => tick a <= tick b) ns.

(** *** Example documents *)

(** The notes [(5,1,..), (5,0,..), (2,3,..)]. *)
Definition unordered_notes : list Note :=
  [mkNote 5 1 0 0; mkNote 5 0 0 0; mkNote 2 3 0 0].

Definition unordered_file : File :=
  mkFile default_header unordered_notes [mkLayer 0 [] 100 100] [].

(** A new file whose header claims a song length of 7. *)
Definition stale_file : File := new_file (set_song_length default_header 7).

(** A file whose header claims a song length of 7 while its last note is at
    tick 3. *)
Definition stale_notes_file : File :=
  mkFile (set_song_length default_header 7)
         [mkNote 1 0 0 40; mkNote 3 0 0 42] [mkLayer 0 [] 100 100] [].

(** One instrument of pitch 200. *)
Definition high_pitch_file : File :=
  mkFile default_header [] [mkLayer 0 [] 100 100]
         [mkInstrument 0 [0x41%N] [0x42%N] 200 false].

(** The one-character string U+00E9 (e with acute accent). *)
Definition e_acute : str := [0xE9%N].

(** *** Documents that the format can hold *)

(** ASCII text short enough for its length to fit the 32-bit prefix. *)
Definition plain (s : str) : Prop :=
  ascii s /\ Z.of_nat (length s) <= max_value INT.

(** A tempo that is its own stored form: the 16-bit [int(tempo * 100)],
    divided by 100 again. *)
Definition tempo_stored (t : float) : Prop :=
  exists raw,
    int_of_float (PrimFloat.mul t (float_of_int 100)) = Ok raw
    /\ min_value SHORT <= raw <= max_value SHORT
    /\ PrimFloat.div (float_of_int raw) (float_of_int 100) = t.

Definition signed_int (v : Z) : Prop := min_value INT <= v <= max_value INT.

Definition header_fits (h : Header) : Prop :=
  signed_byte (version h) /\ signed_byte (default_instruments h)
  /\ min_value SHORT <= song_length h <= max_value SHORT
  /\ min_value SHORT <= song_layers h <= max_value SHORT
  /\ plain (song_name h) /\ plain (song_author h)
  /\ plain (original_author h) /\ plain (description h)
  /\ tempo_stored (tempo h)
  /\ signed_byte (auto_save_duration h) /\ signed_byte (time_signature h)
  /\ signed_int (minutes_spent h) /\ signed_int (left_clicks h)
  /\ signed_int (right_clicks h) /\ signed_int (blocks_added h)
  /\ signed_int (blocks_removed h) /\ plain (song_origin h).

(** Notes in strictly ascending order of (tick, layer), from the position
    [(pt, pl)] of the note before: ticks from 0, layers from 0, no jump
    beyond 32767, instrument and key in the range of [BYTE]. *)
Fixpoint grid_ordered (pt pl : Z) (ns : list Note) : Prop :=
  match ns with
  | [] => True
  | n :: rest =>
      0 <= tick n
      /\ signed_byte (instrument n) /\ signed_byte (key n)
      /\ ((tick n = pt /\ pl < layer n /\ layer n - pl <= 32767)
          \/ (pt < tick n /\ tick n - pt <= 32767
              /\ 0 <= layer n <= 32766))
      /\ grid_ordered (tick n) (layer n) rest
  end.

Definition layer_fits (l : Layer) : Prop :=
  plain (layer_name l) /\ signed_byte (volume l) /\ signed_byte (panning l).

Definition instrument_plain (i : Instrument) : Prop :=
  plain (instrument_name i) /\ plain (file i) /\ signed_byte (pitch i).

(** Identifiers are the positions, from [i]. *)
Fixpoint layers_numbered (i : Z) (ls : list Layer) : Prop :=
  match ls with
  | [] => True
  | l :: rest => layer_id l = i /\ layers_numbered (i + 1) rest
  end.

Fixpoint instruments_numbered (i : Z) (l : list Instrument) : Prop :=
  match l with
  | [] => True
  | x :: rest => instrument_id x = i /\ instruments_numbered (i + 1) rest
  end.

(** A document that [save] writes and [read_file] reads back. *)
Definition storable (f : File) : Prop :=
  header_fits (header (update_header f))
  /\ grid_ordered (-1) (-1) (notes f)
  /\ Forall layer_fits (layers f) /\ layers_numbered 0 (layers f)
  /\ Forall instrument_plain (instruments f)
  /\ instruments_numbered 0 (instruments f)
  /\ Z.of_nat (length (instruments f)) <= 127.

(** The header counters agree with the notes and the layers. *)
Definition header_consistent (f : File) : Prop :=
  song_layers (header f) = Z.of_nat (length (layers f))
  /\ song_length (header f)
     = match notes f with
       | [] => 0
       | n :: ns => tick (last ns n)
       end.

(** [p] reads [a] off the bytes [bs], whatever follows them. *)
Definition reads {A : Type} (p : Parser A) (a : A) (bs : list byte) : Prop :=
  forall rest, p (bs ++ rest) = (Ok a, rest).

(** The chords of a list of notes in tick order: runs of equal tick. *)
Fixpoint chords_of (ns : list Note) : list (Z * list Note) :=
  match ns with
  | [] => []
  | n :: rest =>
      match chords_of rest with
      | (t, c) :: g =>
          if tick n =? t then (t, n :: c) :: g
          else (tick n, [n]) :: (t, c) :: g
      | [] => [(tick n, [n])]
      end
  end.

(** A chord at tick [t] after layer [pl], and chords after tick [pt], that
    [write_notes] can write. *)
Fixpoint chord_fits (t pl : Z) (c : list Note) : Prop :=
  match c with
  | [] => True
  | n :: rest =>
      tick n = t /\ pl < layer n /\ layer n - pl <= 32767
      /\ signed_byte (instrument n) /\ signed_byte (key n)
      /\ chord_fits t (layer n) rest
  end.

Fixpoint chords_fit (pt : Z) (g : list (Z * list Note)) : Prop :=
  match g with
  | [] => True
  | (t, c) :: rest =>
      pt < t /\ t - pt <= 32767 /\ chord_fits t (-1) c /\ chords_fit t rest
  end.

(** The bytes of a chord and of a list of chords. *)
Fixpoint chord_bytes (pl : Z) (c : list Note) : list byte :=
  match c with
  | [] => []
  | n :: rest =>
      packed SHORT (layer n - pl) ++ packed BYTE (instrument n)
      ++ packed BYTE (key n) ++ chord_bytes (layer n) rest
  end.

Fixpoint chords_bytes (pt : Z) (g : list (Z * list Note)) : list byte :=
  match g with
  | [] => []
  | (t, c) :: rest =>
      packed SHORT (t - pt) ++ chord_bytes (-1) c ++ packed SHORT 0
      ++ chords_bytes t rest
  end.

(** Putting the chord [chord] at tick [ct] in front of the chords [g]: it
    joins the first chord of [g] when that one is at tick [ct] too. *)
Definition push (ct : Z) (chord : list Note) (g : list (Z * list Note))
  : list (Z * list Note) :=
  match g with
  | (t, c) :: g' =>
      if t =? ct then (ct, chord ++ c) :: g' else (ct, chord) :: g
  | [] => [(ct, chord)]
  end.

Definition layer_ordered (c : list Note) : Prop :=
  StronglySorted (fun a b => layer a <= layer b) c.

(** Notes at ticks 0, 5, 5 and 100, the two at tick 5 on layers 2 and 7. *)
Definition four_notes : list Note :=
  [mkNote 0 0 1 40; mkNote 5 2 1 41; mkNote 5 7 2 42; mkNote 100 0 3 43].

Definition four_notes_file : File :=
  mkFile default_header four_notes [mkLayer 0 [] 100 100] [].

(** The note grid of four notes that form a chord of one, a chord of two and
    a chord of one, as laid out with the tick-level deltas [d0], [d1] and
    [d2]. *)
Definition grid_of_four (n0 n1 n2 n3 : Note) (d0 d1 d2 : Z) : list byte :=
  packed SHORT d0 ++ chord_bytes (-1) [n0] ++ packed SHORT 0
  ++ packed SHORT d1 ++ chord_bytes (-1) [n1; n2] ++ packed SHORT 0
  ++ packed SHORT d2 ++ chord_bytes (-1) [n3] ++ packed SHORT 0
  ++ packed SHORT 0.

(** A new file whose only layer carries the identifier 3. *)
Definition renumbered_file : File :=
  mkFile (set_song_layers default_header 1) [] [mkLayer 3 [] 100 100] [].

(** A new file whose only layer is panned to 150, right of the centre 100
    on the scale 0..200. *)
Definition panned_file : File :=
  mkFile (set_song_layers default_header 1) [] [mkLayer 0 [] 100 150] [].

(** A small song: a title, four notes, two layers, one instrument, and a
    header whose counters are out of date. *)
Definition song : File :=
  mkFile
    (mkHeader 3 16 0 0 [0x53; 0x6F; 0x6E; 0x67]%N [0x6D; 0x65]%N [] []
       10%float true 10 4 12 345 67 890 5 [])
    four_notes
    [mkLayer 0 [0x4C; 0x31]%N 100 100; mkLayer 1 [] 80 120]
    [mkInstrument 0 [0x70; 0x6C; 0x69; 0x6E; 0x67]%N
       [0x70; 0x2E; 0x6F; 0x67; 0x67]%N 45 true].

(** *** Truncated streams *)

(** The text of a document is ASCII. *)
Definition header_ascii (h : Header) : Prop :=
  ascii (song_name h) /\ ascii (song_author h) /\ ascii (original_author h)
  /\ ascii (description h) /\ ascii (song_origin h).

Definition layer_ascii (l : Layer) : Prop := ascii (layer_name l).

Definition instrument_ascii (i : Instrument) : Prop :=
  ascii (instrument_name i) /\ ascii (file i).

Definition text_ascii (f : File) : Prop :=
  header_ascii (header f) /\ Forall layer_ascii (layers f)
  /\ Forall instrument_ascii (instruments f).

(** How a parser that returned [a] on a stream may end on a cut of that
    stream: with [struct.error]; with a decoding error, when [a] holds text
    that is not ASCII; or, if [may_starve], with a value and nothing left
    to read. *)
Definition cut_short {A : Type} (may_starve : bool) (clean : A -> Prop)
           (a : A) (o : result A * buffer) : Prop :=
  match o with
  | (Err e, _) =>
      e = StructError \/ (e = UnicodeDecodeError /\ ~ clean a)
  | (Ok _, rest) => may_starve = true /\ rest = []
  end.

(** [p] under truncation: when [p] returns [a] on a stream, on every cut of
    the stream it either returns [a] too, the cut lying in what it left
    unread, or it is cut short. *)
Definition cut {A : Type} (may_starve : bool) (clean : A -> Prop)
           (p : Parser A) : Prop :=
  forall s a r, p s = (Ok a, r) ->
  forall c t, s = c ++ t -> t <> [] ->
    (exists r', r = r' ++ t /\ p c = (Ok a, r'))
    \/ cut_short may_starve clean a (p c).

(** [p] on the empty stream: [struct.error], or, if [may_starve], a value. *)
Definition on_empty {A : Type} (may_starve : bool) (p : Parser A) : Prop :=
  match p [] with
  | (Err e, _) => e = StructError
  | (Ok _, rest) => may_starve = true /\ rest = []
  end.

Definition any {A : Type} (_ : A) : Prop := True.

(** A stream that decodes to a song named with the single character U+00E9,
    and the cut of it after the first byte of that character. *)
Definition accented_stream : buffer :=
  [x00; x00; x03; x10; x00; x00; x00; x00;
   x02; x00; x00; x00; xc3; xa9;
   x00; x00; x00; x00; x00; x00; x00; x00; x00; x00; x00; x00;
   xe8; x03; x00; x0a; x04;
   x00; x00; x00; x00; x00; x00; x00; x00; x00; x00; x00; x00;
   x00; x00; x00; x00; x00; x00; x00; x00;
   x00; x00; x00; x00;
   x00; x00;
   x00].

Definition accented_cut : buffer := firstn 13 accented_stream.

(** *** Further notions, for the properties beyond the claims *)

(** The layers [ls] with the identifiers that [parse_layers] gives them:
    their positions, from [i]. *)
Fixpoint layers_renumbered (i : Z) (ls : list Layer) : list Layer :=
  match ls with
  | [] => []
  | l :: rest =>
      mkLayer i (layer_name l) (volume l) (panning l)
        :: layers_renumbered (i + 1) rest
  end.

Fixpoint instruments_renumbered (i : Z) (l : list Instrument)
  : list Instrument :=
  match l with
  | [] => []
  | x :: rest =>
      mkInstrument i (instrument_name x) (file x) (pitch x) (press_key x)
        :: instruments_renumbered (i + 1) rest
  end.

(** The positions [i, i + 1, ...] of [n] records. *)
Fixpoint positions (i : Z) (n : nat) : list Z :=
  match n with
  | O => []
  | S n' => i :: positions (i + 1) n'
  end.

(** A stored tempo [raw] as [parse_header] decodes it and [write_header]
    encodes it again: [int(raw / 100.0 * 100)]. *)
Definition tempo_reencoded (raw : Z) : result Z :=
  int_of_float
    (PrimFloat.mul (PrimFloat.div (float_of_int raw) (float_of_int 100))
                   (float_of_int 100)).

(** The re-encoded tempo is [raw] or the next integer towards zero. *)
Definition tempo_close (raw : Z) : bool :=
  match tempo_reencoded raw with
  | Ok raw' => (Z.abs raw' <=? Z.abs raw) && (Z.abs (raw - raw') <=? 1)
  | Err _ => false
  end.

(** [p] holds of the [n] integers from [z]. *)
Fixpoint all_from (n : nat) (z : Z) (p : Z -> bool) : bool :=
  match n with
  | O => true
  | S n' => p z && all_from n' (z + 1) p
  end.

(** A header stream whose stored tempo is 29, and the header it holds. *)
Definition slow_stream : buffer :=
  [x00; x00; x03; x10; x00; x00; x00; x00;
   x00; x00; x00; x00; x00; x00; x00; x00;
   x00; x00; x00; x00; x00; x00; x00; x00;
   x1d; x00; x00; x0a; x04;
   x00; x00; x00; x00; x00; x00; x00; x00; x00; x00; x00; x00;
   x00; x00; x00; x00; x00; x00; x00; x00;
   x00; x00; x00; x00].

Definition slow_header : Header :=
  set_song_length
    (mkHeader 3 16 0 0 [] [] [] []
       (PrimFloat.div (float_of_int 29) (float_of_int 100))
       false 10 4 0 0 0 0 0 [])
    0.

(** [p] when more bytes follow the stream: having returned [a] on a
    stream, it returns [a] again with the added bytes left unread -- unless,
    if [may_starve], it had read the stream to its end. *)
Definition extends {A : Type} (may_starve : bool) (p : Parser A) : Prop :=
  forall s a r, p s = (Ok a, r) ->
    (forall x, p (s ++ x) = (Ok a, r ++ x))
    \/ (may_starve = true /\ r = []).

(** The numeric fields of a header are in the ranges of their formats. *)
Definition header_in_range (h : Header) : Prop :=
  signed_byte (version h) /\ signed_byte (default_instruments h)
  /\ min_value SHORT <= song_length h <= max_value SHORT
  /\ min_value SHORT <= song_layers h <= max_value SHORT
  /\ signed_byte (auto_save_duration h) /\ signed_byte (time_signature h)
  /\ signed_int (minutes_spent h) /\ signed_int (left_clicks h)
  /\ signed_int (right_clicks h) /\ signed_int (blocks_added h)
  /\ signed_int (blocks_removed h).

(** *** The streams of [Parser.jump] *)

(** A jump that does not end the sequence: a value of [SHORT] other
    than 0. *)
Definition jump_value (jump : Z) : Prop :=
  jump <> 0 /\ min_value SHORT <= jump <= max_value SHORT.

(** The bytes of a run of jumps, two for each, least significant first. *)
Definition jumps_bytes (jumps : list Z) : buffer :=
  concat (map (packed SHORT) jumps).

(** The jumps 1 and 5 and then a single byte: the stream ends inside the
    third jump. *)
Definition cut_jumps : buffer := [x01; x00; x05; x00; x07].

(* ================================================================== *)
(** * Properties *)

(** ** Bytes and the three formats *)

Lemma byte_val_range (b : byte) : 0 <= byte_val b < 256.
Proof.
  unfold byte_val. pose proof (Byte.to_N_bounded b). lia.
Qed.

Lemma byte_of_N_to_N (b : byte) : byte_of_N (Byte.to_N b) = b.
Proof. unfold byte_of_N. now rewrite Byte.of_to_N. Qed.

Lemma to_N_byte_of_N (n : N) : (n < 256)%N -> Byte.to_N (byte_of_N n) = n.
Proof.
  intros Hn. unfold byte_of_N.
  destruct (Byte.of_N n) as [b|] eqn:E.
  - now apply Byte.to_of_N.
  - apply Byte.of_N_None_iff in E. lia.
Qed.

Lemma byte_of_val (b : byte) : byte_of (byte_val b) = b.
Proof.
  unfold byte_of. pose proof (byte_val_range b) as H.
  rewrite Z.mod_small by lia. unfold byte_val.
  rewrite N2Z.id. apply byte_of_N_to_N.
Qed.

Lemma byte_val_of (z : Z) : byte_val (byte_of z) = z mod 256.
Proof.
  unfold byte_val, byte_of.
  pose proof (Z.mod_pos_bound z 256 ltac:(lia)) as H.
  rewrite to_N_byte_of_N by lia. lia.
Qed.

Lemma length_le_bytes (n : nat) (u : Z) : length (le_bytes n u) = n.
Proof. revert u. induction n; intros; simpl; congruence. Qed.

Lemma le_value_range (bs : list byte) :
  0 <= le_value bs < 256 ^ Z.of_nat (length bs).
Proof.
  induction bs as [|b bs IH]; [simpl; lia|].
  cbn [le_value length]. rewrite Nat2Z.inj_succ, Z.pow_succ_r by lia.
  pose proof (byte_val_range b). lia.
Qed.

Lemma le_value_bytes (n : nat) (u : Z) :
  le_value (le_bytes n u) = u mod 256 ^ Z.of_nat n.
Proof.
  revert u. induction n as [|n IH]; intros u.
  - simpl. now rewrite Z.mod_1_r.
  - cbn [le_bytes le_value]. rewrite IH, byte_val_of.
    rewrite Nat2Z.inj_succ, Z.pow_succ_r by lia.
    rewrite Z.rem_mul_r by lia. reflexivity.
Qed.

Lemma le_bytes_value (bs : list byte) :
  le_bytes (length bs) (le_value bs) = bs.
Proof.
  induction bs as [|b bs IH]; [reflexivity|].
  cbn [length le_bytes le_value].
  pose proof (byte_val_range b) as Hb.
  f_equal.
  - unfold byte_of.
    replace ((byte_val b + 256 * le_value bs) mod 256) with (byte_val b).
    + unfold byte_val. rewrite N2Z.id. apply byte_of_N_to_N.
    + apply Z.mod_unique_pos with (q := le_value bs); lia.
  - replace ((byte_val b + 256 * le_value bs) / 256) with (le_value bs);
      [exact IH|].
    apply Z.div_unique_pos with (r := byte_val b); lia.
Qed.

Lemma length_size (fmt : Struct) : Z.of_nat (Z.to_nat (size fmt)) = size fmt.
Proof. destruct fmt; reflexivity. Qed.

Lemma pack_length (fmt : Struct) (v : Z) (bs : list byte) :
  pack fmt v = Ok bs -> Z.of_nat (length bs) = size fmt.
Proof.
  unfold pack. destruct (in_range fmt v); [|discriminate].
  intros [= <-]. rewrite length_le_bytes. apply length_size.
Qed.

Lemma in_range_iff (fmt : Struct) (v : Z) :
  in_range fmt v = true <-> min_value fmt <= v <= max_value fmt.
Proof. unfold in_range. rewrite andb_true_iff, !Z.leb_le. tauto. Qed.

Lemma wrap_signed (m v : Z) :
  0 < m -> - m <= v < m ->
  (if v mod (2 * m) <? m then v mod (2 * m) else v mod (2 * m) - 2 * m) = v.
Proof.
  intros Hm Hv. destruct (Z.le_gt_cases 0 v) as [P|P].
  - rewrite Z.mod_small by lia. destruct (Z.ltb_spec v m); lia.
  - replace (v mod (2 * m)) with (v + 2 * m)
      by (apply Z.mod_unique_pos with (q := -1); lia).
    destruct (Z.ltb_spec (v + 2 * m) m); lia.
Qed.

Lemma half_range (fmt : Struct) :
  2 ^ bits fmt = 2 * 2 ^ (bits fmt - 1) /\ 0 < 2 ^ (bits fmt - 1) /\
  256 ^ size fmt = 2 ^ bits fmt.
Proof. destruct fmt; cbv; repeat split; reflexivity. Qed.

Lemma to_signed_wrap (fmt : Struct) (v : Z) :
  min_value fmt <= v <= max_value fmt ->
  to_signed fmt (v mod 2 ^ bits fmt) = v.
Proof.
  unfold min_value, max_value, to_signed.
  destruct (half_range fmt) as (-> & Hpos & _). intros R.
  apply wrap_signed; lia.
Qed.

Lemma unpack_pack (fmt : Struct) (v : Z) (bs : list byte) :
  pack fmt v = Ok bs -> unpack fmt bs = Ok v.
Proof.
  intros H. pose proof (pack_length _ _ _ H) as Hlen.
  unfold unpack. rewrite Hlen, Z.eqb_refl. f_equal.
  unfold pack in H. destruct (in_range fmt v) eqn:R; [|discriminate].
  injection H as <-. apply in_range_iff in R.
  rewrite le_value_bytes, length_size.
  destruct (half_range fmt) as (_ & _ & ->).
  rewrite Z.mod_mod by (destruct fmt; discriminate).
  now apply to_signed_wrap.
Qed.

Lemma to_signed_range (fmt : Struct) (u : Z) :
  0 <= u < 2 ^ bits fmt ->
  min_value fmt <= to_signed fmt u <= max_value fmt /\
  to_signed fmt u mod 2 ^ bits fmt = u.
Proof.
  unfold min_value, max_value, to_signed.
  destruct (half_range fmt) as (-> & Hpos & _). intros R.
  destruct (Z.ltb_spec u (2 ^ (bits fmt - 1))).
  - split; [lia|]. apply Z.mod_small; lia.
  - split; [lia|]. symmetry. apply Z.mod_unique_pos with (q := -1); lia.
Qed.

Lemma unpack_range (fmt : Struct) (bs : list byte) (v : Z) :
  unpack fmt bs = Ok v -> min_value fmt <= v <= max_value fmt.
Proof.
  unfold unpack.
  destruct (Z.eqb_spec (Z.of_nat (length bs)) (size fmt)) as [E|];
    [|discriminate].
  intros [= <-]. pose proof (le_value_range bs) as R. rewrite E in R.
  destruct (half_range fmt) as (_ & _ & Hp). rewrite Hp in R.
  now apply to_signed_range.
Qed.

Lemma pack_unpack (fmt : Struct) (bs : list byte) (v : Z) :
  unpack fmt bs = Ok v -> pack fmt v = Ok bs.
Proof.
  intros H. pose proof (unpack_range _ _ _ H) as R.
  unfold pack. apply in_range_iff in R. rewrite R. f_equal.
  unfold unpack in H.
  destruct (Z.eqb_spec (Z.of_nat (length bs)) (size fmt)) as [E|];
    [|discriminate].
  injection H as <-.
  pose proof (le_value_range bs) as B. rewrite E in B.
  destruct (half_range fmt) as (_ & _ & Hp). rewrite Hp in B.
  replace (Z.to_nat (size fmt)) with (length bs) by lia.
  rewrite (proj2 (to_signed_range fmt _ B)).
  apply le_bytes_value.
Qed.

(** ** The primitive reads *)

Lemma size_pos (fmt : Struct) : 0 < size fmt.
Proof. destruct fmt; reflexivity. Qed.

(** A fixed-width read either finds its [size] bytes or exhausts the stream
    and raises [struct.error]. *)
Lemma read_numeric_eq (fmt : Struct) (buf : buffer) :
  read_numeric fmt buf =
  if Z.of_nat (length buf) <? size fmt then (Err StructError, [])
  else (Ok (to_signed fmt (le_value (firstn (Z.to_nat (size fmt)) buf))),
        skipn (Z.to_nat (size fmt)) buf).
Proof.
  pose proof (size_pos fmt) as Hs.
  unfold read_numeric, bind, read, lift, unpack.
  destruct (Z.ltb_spec (size fmt) (-1)); [lia|].
  destruct (Z.eqb_spec (size fmt) (-1)); [lia|].
  destruct (Z.ltb_spec (Z.of_nat (length buf)) (size fmt)) as [L|L].
  - rewrite firstn_all2, skipn_all2 by lia.
    destruct (Z.eqb_spec (Z.of_nat (length buf)) (size fmt)); [lia|reflexivity].
  - rewrite length_firstn.
    destruct (Z.eqb_spec (Z.of_nat (Nat.min (Z.to_nat (size fmt)) (length buf)))
                (size fmt)); [reflexivity|lia].
Qed.

Lemma read_numeric_app (fmt : Struct) (v : Z) (bs rest : buffer) :
  pack fmt v = Ok bs -> read_numeric fmt (bs ++ rest) = (Ok v, rest).
Proof.
  intros H. pose proof (pack_length _ _ _ H) as L.
  pose proof (unpack_pack _ _ _ H) as U.
  rewrite read_numeric_eq, length_app.
  destruct (Z.ltb_spec (Z.of_nat (length bs + length rest)) (size fmt)); [lia|].
  replace (Z.to_nat (size fmt)) with (length bs + 0)%nat by lia.
  rewrite firstn_app_2, skipn_app, skipn_all2 by lia. cbn [firstn].
  rewrite app_nil_r, Nat.add_0_r, Nat.sub_diag. cbn [skipn app].
  unfold unpack in U. rewrite L, Z.eqb_refl in U. now injection U as ->.
Qed.

Lemma read_numeric_ok (fmt : Struct) (buf rest : buffer) (v : Z) :
  read_numeric fmt buf = (Ok v, rest) ->
  exists bs, buf = bs ++ rest /\ pack fmt v = Ok bs.
Proof.
  pose proof (size_pos fmt) as Hs.
  rewrite read_numeric_eq.
  destruct (Z.ltb_spec (Z.of_nat (length buf)) (size fmt)) as [L|L];
    [discriminate|].
  intros [= <- <-]. exists (firstn (Z.to_nat (size fmt)) buf). split.
  - symmetry. apply firstn_skipn.
  - apply pack_unpack. unfold unpack. rewrite length_firstn.
    destruct (Z.eqb_spec (Z.of_nat (Nat.min (Z.to_nat (size fmt)) (length buf)))
                (size fmt)); [reflexivity|lia].
Qed.

Lemma read_numeric_err (fmt : Struct) (buf rest : buffer) (e : error) :
  read_numeric fmt buf = (Err e, rest) ->
  e = StructError /\ rest = [] /\ Z.of_nat (length buf) < size fmt.
Proof.
  rewrite read_numeric_eq.
  destruct (Z.ltb_spec (Z.of_nat (length buf)) (size fmt)) as [L|L];
    [|discriminate].
  intros [= <- <-]. auto.
Qed.

Lemma read_numeric_range (fmt : Struct) (buf rest : buffer) (v : Z) :
  read_numeric fmt buf = (Ok v, rest) ->
  min_value fmt <= v <= max_value fmt.
Proof.
  intros H. apply read_numeric_ok in H as (bs & _ & P).
  apply unpack_pack in P. eapply unpack_range; eauto.
Qed.

(** ** Which exceptions the parser raises *)

Lemma raises_only_bind {A B : Type} (E : error -> Prop)
      (p : Parser A) (k : A -> Parser B) :
  raises_only E p -> (forall a, raises_only E (k a)) ->
  raises_only E (bind p k).
Proof.
  intros Hp Hk buf e rest. unfold bind.
  destruct (p buf) as [[a|e'] buf'] eqn:P.
  - apply Hk.
  - intros [= <- <-]. eapply Hp; eauto.
Qed.

Lemma raises_only_ret {A : Type} (E : error -> Prop) (a : A) :
  raises_only E (ret a).
Proof. intros buf e rest; discriminate. Qed.

Lemma raises_only_weaken {A : Type} (E E' : error -> Prop) (p : Parser A) :
  (forall e, E e -> E' e) -> raises_only E p -> raises_only E' p.
Proof. intros H Hp buf e rest P. eauto. Qed.

Lemma read_numeric_raises (fmt : Struct) :
  raises_only (fun e => e = StructError) (read_numeric fmt).
Proof. intros buf e rest H. now apply read_numeric_err in H. Qed.

Lemma decode_raises (d : list byte) (e : error) :
  decode d = Err e -> e = UnicodeDecodeError.
Proof.
  remember (length d) as n eqn:L.
  revert d L e. induction n as [n IH] using lt_wf_ind. intros d L e.
  assert (forall d', (length d' < n)%nat -> forall s e',
             match decode d' with
             | Ok s0 => Ok (s :: s0)
             | Err e0 => Err e0
             end = @Err str e' -> e' = UnicodeDecodeError) as K.
  { intros d' L' s e'. destruct (decode d') eqn:Q; [discriminate|].
    intros [= <-]. eapply IH; eauto. }
  destruct d as [|b0 r0]; [discriminate|]. cbn [decode]. subst n.
  repeat match goal with
         | |- Ok _ = Err _ -> _ => discriminate
         | |- Err _ = Err _ -> _ => now intros [= <-]
         | |- (if ?c then _ else _) = _ -> _ => destruct c
         | |- match decode ?x with _ => _ end = _ -> _ =>
             apply (K x); cbn [length]; lia
         | |- match ?r with [] => _ | _ :: _ => _ end = _ -> _ =>
             destruct r
         end.
Qed.

Lemma read_string_raises :
  raises_only (fun e => e <> DeprecationWarning) read_string.
Proof.
  unfold read_string. apply raises_only_bind.
  - eapply raises_only_weaken; [|apply read_numeric_raises].
    intros e ->; discriminate.
  - intros n. apply raises_only_bind.
    + intros buf e rest. unfold read.
      destruct (n <? -1); [intros [= <- <-]; discriminate|].
      destruct (n =? -1); discriminate.
    + intros data buf e rest. unfold lift. intros [= H <-].
      apply decode_raises in H. subst e. discriminate.
Qed.

(** ** The jump generator and the note loops: fuel *)

Lemma read_numeric_length (fmt : Struct) (buf rest : buffer) (v : Z) :
  read_numeric fmt buf = (Ok v, rest) ->
  Z.of_nat (length buf) = size fmt + Z.of_nat (length rest).
Proof.
  intros H. apply read_numeric_ok in H as (bs & -> & P).
  apply pack_length in P. rewrite length_app. lia.
Qed.

Lemma jump_next_eq (value : Z) (buf : buffer) :
  jump_next value buf =
  match read_numeric SHORT buf with
  | (Ok jump, buf') =>
      (Ok (if jump =? 0 then None else Some (value + jump)), buf')
  | (Err e, buf') => (Err e, buf')
  end.
Proof.
  unfold jump_next, bind.
  destruct (read_numeric SHORT buf) as [[j|e] b]; [|reflexivity].
  now destruct (j =? 0).
Qed.

Lemma jump_next_length (value : Z) (buf rest : buffer) (o : option Z) :
  jump_next value buf = (Ok o, rest) ->
  (length buf = 2 + length rest)%nat.
Proof.
  rewrite jump_next_eq.
  destruct (read_numeric SHORT buf) as [[j|e] b] eqn:R; [|discriminate].
  intros [= _ <-]. apply read_numeric_length in R. unfold size in R. lia.
Qed.

Lemma jump_next_err (value : Z) (buf rest : buffer) (e : error) :
  jump_next value buf = (Err e, rest) ->
  e = StructError /\ rest = [] /\ (length buf < 2)%nat.
Proof.
  rewrite jump_next_eq.
  destruct (read_numeric SHORT buf) as [[j|e'] b] eqn:R; [discriminate|].
  intros [= <- <-]. apply read_numeric_err in R as (-> & -> & L).
  unfold size in L. repeat split; lia.
Qed.

Lemma read_note_length (t l : Z) (buf rest : buffer) (n : Note) :
  read_note t l buf = (Ok n, rest) ->
  (length buf = 2 + length rest)%nat.
Proof.
  unfold read_note, bind, ret.
  destruct (read_numeric BYTE buf) as [[i|e] b] eqn:R1; [|discriminate].
  destruct (read_numeric BYTE b) as [[k|e] b'] eqn:R2; [|discriminate].
  intros [= _ <-].
  apply read_numeric_length in R1, R2. unfold size in R1, R2. lia.
Qed.

Lemma read_note_err (t l : Z) (buf rest : buffer) (e : error) :
  read_note t l buf = (Err e, rest) ->
  e = StructError /\ rest = [] /\ (length buf < 2)%nat.
Proof.
  unfold read_note, bind, ret.
  destruct (read_numeric BYTE buf) as [[i|e1] b] eqn:R1.
  - destruct (read_numeric BYTE b) as [[k|e2] b'] eqn:R2; [discriminate|].
    intros [= <- <-].
    apply read_numeric_length in R1.
    apply read_numeric_err in R2 as (-> & -> & L). unfold size in R1, L.
    repeat split; lia.
  - intros [= <- <-]. apply read_numeric_err in R1 as (-> & -> & L).
    unfold size in L. repeat split; lia.
Qed.

(** The generator loops never run out of fuel when given more rounds than
    the stream has bytes, and more fuel does not change what they do. *)
Lemma jump_from_fuel (fuel : nat) (value : Z) (buf : buffer) :
  (length buf < fuel)%nat ->
  exists t, jump_from fuel value buf = Some t
            /\ (length (leftover t) <= length buf)%nat.
Proof.
  revert value buf. induction fuel as [|fuel IH]; intros value buf L; [lia|].
  cbn [jump_from].
  destruct (jump_next value buf) as [[[v|]|e] b] eqn:J.
  - apply jump_next_length in J.
    destruct (IH v b) as ([[ys r] b'] & -> & Hl); [lia|].
    cbn. eexists; split; [reflexivity|]. cbn in *. lia.
  - apply jump_next_length in J. eexists; split; [reflexivity|]. cbn. lia.
  - apply jump_next_err in J as (_ & -> & _).
    eexists; split; [reflexivity|]. cbn. lia.
Qed.

Lemma parse_chord_fuel (fuel : nat) (current_tick value : Z) (buf : buffer) :
  (length buf < fuel)%nat ->
  exists t, parse_chord fuel current_tick value buf = Some t
            /\ (length (leftover t) <= length buf)%nat.
Proof.
  revert value buf. induction fuel as [|fuel IH]; intros value buf L; [lia|].
  cbn [parse_chord].
  destruct (jump_next value buf) as [[[l|]|e] b] eqn:J.
  - apply jump_next_length in J.
    destruct (read_note current_tick l b) as [[n|e] b'] eqn:R.
    + apply read_note_length in R.
      destruct (IH l b') as ([[ys r] b''] & -> & Hl); [lia|].
      cbn. eexists; split; [reflexivity|]. cbn in *. lia.
    + apply read_note_err in R as (_ & -> & _).
      eexists; split; [reflexivity|]. cbn. lia.
  - apply jump_next_length in J. eexists; split; [reflexivity|]. cbn. lia.
  - apply jump_next_err in J as (_ & -> & _).
    eexists; split; [reflexivity|]. cbn. lia.
Qed.

Lemma parse_ticks_fuel (fuel : nat) (value : Z) (buf : buffer) :
  (length buf < fuel)%nat ->
  exists t, parse_ticks fuel value buf = Some t
            /\ (length (leftover t) <= length buf)%nat.
Proof.
  revert value buf. induction fuel as [|fuel IH]; intros value buf L; [lia|].
  cbn [parse_ticks].
  destruct (jump_next value buf) as [[[t|]|e] b] eqn:J.
  - apply jump_next_length in J.
    destruct (parse_chord_fuel fuel t (-1) b) as ([[ys [[]|e]] b'] & -> & Hl);
      [lia| |].
    + cbn in Hl. destruct (IH t b') as ([[ys' r] b''] & -> & Hl'); [lia|].
      cbn. eexists; split; [reflexivity|]. cbn in *. lia.
    + eexists; split; [reflexivity|]. cbn in *. lia.
  - apply jump_next_length in J. eexists; split; [reflexivity|]. cbn. lia.
  - apply jump_next_err in J as (_ & -> & _).
    eexists; split; [reflexivity|]. cbn. lia.
Qed.

Lemma jump_from_more (fuel fuel' : nat) (value : Z) (buf : buffer)
      (t : trace Z) :
  jump_from fuel value buf = Some t -> (fuel <= fuel')%nat ->
  jump_from fuel' value buf = Some t.
Proof.
  revert fuel' value buf t.
  induction fuel as [|fuel IH]; intros fuel' value buf t H L; [discriminate|].
  destruct fuel' as [|fuel']; [lia|]. cbn [jump_from] in *.
  destruct (jump_next value buf) as [[[v|]|e] b]; try exact H.
  destruct (jump_from fuel v b) as [t'|] eqn:E; [|discriminate].
  rewrite (IH fuel' v b t' E) by lia. exact H.
Qed.

Lemma parse_chord_more (fuel fuel' : nat) (current_tick value : Z)
      (buf : buffer) (t : trace Note) :
  parse_chord fuel current_tick value buf = Some t -> (fuel <= fuel')%nat ->
  parse_chord fuel' current_tick value buf = Some t.
Proof.
  revert fuel' value buf t.
  induction fuel as [|fuel IH]; intros fuel' value buf t H L; [discriminate|].
  destruct fuel' as [|fuel']; [lia|]. cbn [parse_chord] in *.
  destruct (jump_next value buf) as [[[l|]|e] b]; try exact H.
  destruct (read_note current_tick l b) as [[n|e] b']; try exact H.
  destruct (parse_chord fuel current_tick l b') as [t'|] eqn:E;
    [|discriminate].
  rewrite (IH fuel' l b' t' E) by lia. exact H.
Qed.

Lemma parse_ticks_more (fuel fuel' : nat) (value : Z) (buf : buffer)
      (t : trace Note) :
  parse_ticks fuel value buf = Some t -> (fuel <= fuel')%nat ->
  parse_ticks fuel' value buf = Some t.
Proof.
  revert fuel' value buf t.
  induction fuel as [|fuel IH]; intros fuel' value buf t H L; [discriminate|].
  destruct fuel' as [|fuel']; [lia|]. cbn [parse_ticks] in *.
  destruct (jump_next value buf) as [[[tk|]|e] b]; try exact H.
  destruct (parse_chord fuel tk (-1) b) as [[[ys r] b']|] eqn:C;
    [|discriminate].
  rewrite (parse_chord_more fuel fuel' tk (-1) b _ C) by lia.
  destruct r as [[]|e]; [|exact H].
  destruct (parse_ticks fuel tk b') as [t'|] eqn:E; [|discriminate].
  rewrite (IH fuel' tk b' t' E) by lia. exact H.
Qed.

(** So [parse_notes] is what any sufficient fuel computes. *)
Lemma parse_notes_is (fuel : nat) (buf : buffer) (t : trace Note) :
  parse_ticks fuel (-1) buf = Some t -> parse_notes buf = t.
Proof.
  intros H. unfold parse_notes.
  destruct (parse_ticks_fuel (S (length buf)) (-1) buf) as (t' & E & _);
    [lia|].
  rewrite E. cbn.
  pose proof (parse_ticks_more _ (Nat.max fuel (S (length buf))) _ _ _ H
                ltac:(lia)) as H1.
  pose proof (parse_ticks_more _ (Nat.max fuel (S (length buf))) _ _ _ E
                ltac:(lia)) as H2.
  congruence.
Qed.

Lemma parse_notes_some (buf : buffer) :
  parse_ticks (S (length buf)) (-1) buf = Some (parse_notes buf).
Proof.
  unfold parse_notes.
  destruct (parse_ticks_fuel (S (length buf)) (-1) buf) as (t' & E & _);
    [lia|].
  now rewrite E.
Qed.

Lemma jump_some (buf : buffer) :
  jump_from (S (length buf)) (-1) buf = Some (jump buf).
Proof.
  unfold jump.
  destruct (jump_from_fuel (S (length buf)) (-1) buf) as (t' & E & _); [lia|].
  now rewrite E.
Qed.

(** ** The jump sequence *)

Lemma jump_next_cons (value : Z) (b0 b1 : byte) (rest : buffer) :
  jump_next value (b0 :: b1 :: rest) =
  (Ok (let jump := to_signed SHORT (le_value [b0; b1]) in
       if jump =? 0 then None else Some (value + jump)), rest).
Proof.
  rewrite jump_next_eq, read_numeric_eq.
  destruct (Z.ltb_spec (Z.of_nat (length (b0 :: b1 :: rest))) (size SHORT))
    as [L|_]; [|reflexivity].
  cbn [length] in L. unfold size in L. lia.
Qed.

Lemma jump_next_short (value : Z) (buf : buffer) :
  (length buf < 2)%nat -> jump_next value buf = (Err StructError, []).
Proof.
  intros L. rewrite jump_next_eq, read_numeric_eq.
  destruct (Z.ltb_spec (Z.of_nat (length buf)) (size SHORT)) as [_|G];
    [reflexivity|]. unfold size in G. lia.
Qed.

Lemma jump_from_yields (fuel : nat) (value : Z) (buf : buffer) (t : trace Z) :
  jump_from fuel value buf = Some t ->
  yielded t = running value (jumps_read buf)
  /\ (ending t = Ok tt \/ ending t = Err StructError).
Proof.
  revert value buf t.
  induction fuel as [|fuel IH]; intros value buf t; [discriminate|].
  cbn [jump_from].
  destruct buf as [|b0 [|b1 rest]].
  1,2: rewrite jump_next_short by (cbn; lia); intros [= <-]; cbn; auto.
  rewrite jump_next_cons. cbn zeta. cbn [jumps_read].
  destruct (to_signed SHORT (le_value [b0; b1]) =? 0).
  - intros [= <-]. cbn; auto.
  - destruct (jump_from fuel _ rest) as [[[ys r] b]|] eqn:E; [|discriminate].
    intros [= <-]. apply IH in E as (E1 & E2). cbn in *.
    split; [now rewrite E1 | exact E2].
Qed.

Lemma running_increasing (value : Z) (jumps : list Z) :
  Forall (fun jump => 0 < jump) jumps ->
  StronglySorted Z.lt (running value jumps)
  /\ Forall (fun v => value < v) (running value jumps).
Proof.
  revert value. induction jumps as [|j js IH]; intros value H; cbn.
  - split; constructor.
  - inversion H as [|? ? Hj Hjs]; subst.
    destruct (IH (value + j) Hjs) as (S1 & S2). split.
    + constructor; [exact S1|]. exact S2.
    + constructor; [lia|]. eapply Forall_impl; [|exact S2].
      cbn. intros; lia.
Qed.

(** ** The note grid: what is yielded, and how it can fail *)

Lemma read_note_fields (t l : Z) (buf rest : buffer) (n : Note) :
  read_note t l buf = (Ok n, rest) ->
  tick n = t /\ layer n = l
  /\ signed_byte (instrument n) /\ signed_byte (key n).
Proof.
  unfold read_note, bind, ret.
  destruct (read_numeric BYTE buf) as [[i|e] b] eqn:R1; [|discriminate].
  destruct (read_numeric BYTE b) as [[k|e] b'] eqn:R2; [|discriminate].
  intros [= <- _]. cbn.
  apply read_numeric_range in R1, R2.
  unfold signed_byte. cbv in R1, R2 |- *. tauto.
Qed.

Lemma parse_chord_trace (fuel : nat) (current_tick value : Z) (buf : buffer)
      (t : trace Note) :
  parse_chord fuel current_tick value buf = Some t ->
  Forall (fun n => signed_byte (instrument n) /\ signed_byte (key n))
         (yielded t)
  /\ (ending t = Ok tt \/ ending t = Err StructError).
Proof.
  revert value buf t.
  induction fuel as [|fuel IH]; intros value buf t; [discriminate|].
  cbn [parse_chord].
  destruct (jump_next value buf) as [[[l|]|e] b] eqn:J.
  - destruct (read_note current_tick l b) as [[n|e] b'] eqn:R.
    + destruct (parse_chord fuel current_tick l b') as [[[ys r] b'']|] eqn:E;
        [|discriminate].
      intros [= <-]. apply IH in E as (E1 & E2).
      apply read_note_fields in R as (_ & _ & R). cbn in *. split; auto.
    + intros [= <-]. apply read_note_err in R as (-> & _). cbn; auto.
  - intros [= <-]. cbn; auto.
  - intros [= <-]. apply jump_next_err in J as (-> & _). cbn; auto.
Qed.

Lemma parse_ticks_trace (fuel : nat) (value : Z) (buf : buffer)
      (t : trace Note) :
  parse_ticks fuel value buf = Some t ->
  Forall (fun n => signed_byte (instrument n) /\ signed_byte (key n))
         (yielded t)
  /\ (ending t = Ok tt \/ ending t = Err StructError).
Proof.
  revert value buf t.
  induction fuel as [|fuel IH]; intros value buf t; [discriminate|].
  cbn [parse_ticks].
  destruct (jump_next value buf) as [[[tk|]|e] b] eqn:J.
  - destruct (parse_chord fuel tk (-1) b) as [[[ys r] b']|] eqn:C;
      [|discriminate].
    apply parse_chord_trace in C as (C1 & C2). cbn in C1, C2.
    destruct r as [[]|e].
    + destruct (parse_ticks fuel tk b') as [[[ys' r'] b'']|] eqn:E;
        [|discriminate].
      intros [= <-]. apply IH in E as (E1 & E2). cbn in *.
      split; [apply Forall_app; auto | exact E2].
    + intros [= <-]. cbn. split; [exact C1|].
      destruct C2 as [C2|C2]; [discriminate|auto].
  - intros [= <-]. cbn; auto.
  - intros [= <-]. apply jump_next_err in J as (-> & _). cbn; auto.
Qed.

Lemma parse_notes_raises :
  raises_only (fun e => e = StructError) (list_of parse_notes).
Proof.
  intros buf e rest. unfold list_of.
  destruct (parse_ticks_trace _ _ _ _ (parse_notes_some buf)) as (_ & H).
  destruct (parse_notes buf) as [[ys [[]|e']] b]; [discriminate|].
  intros [= <- <-]. cbn in H. destruct H as [H|H]; congruence.
Qed.

Lemma read_numeric_not_deprecated (fmt : Struct) :
  raises_only (fun e => e <> DeprecationWarning) (read_numeric fmt).
Proof.
  eapply raises_only_weaken; [|apply read_numeric_raises].
  intros e ->; discriminate.
Qed.

Ltac not_deprecated :=
  repeat first
    [ apply raises_only_ret
    | apply read_numeric_not_deprecated
    | apply read_string_raises
    | apply raises_only_bind; [|intros ?] ].

Lemma header_fields_raises :
  raises_only (fun e => e <> DeprecationWarning) header_fields.
Proof. unfold header_fields. not_deprecated. Qed.

Lemma parse_layers_raises (i : Z) (count : nat) :
  raises_only (fun e => e <> DeprecationWarning) (parse_layers_from i count).
Proof.
  revert i. induction count as [|count IH]; intros i; cbn [parse_layers_from].
  - apply raises_only_ret.
  - not_deprecated. apply IH.
Qed.

Lemma parse_instruments_raises :
  raises_only (fun e => e <> DeprecationWarning) parse_instruments.
Proof.
  unfold parse_instruments. not_deprecated.
  generalize 0 at 1. generalize (Z.to_nat a) as count.
  induction count as [|count IH]; intros i; cbn [parse_instruments_from].
  - apply raises_only_ret.
  - not_deprecated. apply IH.
Qed.

Lemma read_sections_raises (h : Header) :
  raises_only (fun e => e <> DeprecationWarning) (read_sections h).
Proof.
  unfold read_sections. apply raises_only_bind.
  - eapply raises_only_weaken; [|apply parse_notes_raises].
    intros e ->; discriminate.
  - intros ns. apply raises_only_bind; [apply parse_layers_raises|].
    intros ls. apply raises_only_bind; [apply parse_instruments_raises|].
    intros. apply raises_only_ret.
Qed.

(** ** The claims about the decoder's primitives *)

(** C9, as amended.  [BYTE] is the signed format ['<b']: the instrument and
    the key of every note that [parse_notes] yields lie in -128..127, and so
    do those of the notes of every decoded file. *)
Theorem decoded_notes_signed_bytes (buf : buffer) :
  Forall (fun n => signed_byte (instrument n) /\ signed_byte (key n))
         (yielded (parse_notes buf))
  /\ match read_file buf with
     | (Ok f, _) =>
         Forall (fun n => signed_byte (instrument n) /\ signed_byte (key n))
                (notes f)
     | (Err _, _) => True
     end.
Proof.
  split.
  - apply (parse_ticks_trace _ _ _ _ (parse_notes_some buf)).
  - unfold read_file, read_sections, bind, list_of, ret.
    destruct (parse_header buf) as [[h|e] b1]; [|exact I].
    pose proof (parse_ticks_trace _ _ _ _ (parse_notes_some b1)) as (H & _).
    destruct (parse_notes b1) as [[ys [[]|e]] b2]; [|exact I].
    destruct (parse_layers _ b2) as [[ls|e] b3]; [|exact I].
    destruct (parse_instruments b3) as [[ins|e] b4]; [|exact I].
    exact H.
Qed.

(** C9 as stated fails: the bytes 0xFF and 0x80 decode to -1 and -128. *)
Lemma decoded_notes_counterexample :
  ~ Forall (fun n => 0 <= instrument n <= 255 /\ 0 <= key n <= 255)
      (yielded (parse_notes
                  [x01; x00; x01; x00; xff; x80; x00; x00; x00; x00])).
Proof.
  assert (yielded (parse_notes
                     [x01; x00; x01; x00; xff; x80; x00; x00; x00; x00])
          = [mkNote 0 0 (-1) (-128)]) as E by reflexivity.
  rewrite E. intros H. inversion H; subst. cbn in *. lia.
Qed.

(** C6.  A stream whose leading 16-bit value is not 0 makes [read_file]
    raise [DeprecationWarning] with exactly the two bytes of the marker
    consumed and no file returned; after a marker of 0 the decoder goes on
    to the header fields and the sections, and never raises
    [DeprecationWarning]. *)
Theorem legacy_format_rejected (b0 b1 : byte) (rest : buffer) (marker : Z) :
  unpack SHORT [b0; b1] = Ok marker ->
  (marker <> 0 ->
   read_file (b0 :: b1 :: rest) = (Err DeprecationWarning, rest))
  /\ (marker = 0 ->
      read_file (b0 :: b1 :: rest)
      = (header <- header_fields ;; read_sections header)%parser rest
      /\ fst (read_file (b0 :: b1 :: rest)) <> Err DeprecationWarning).
Proof.
  intros U. apply pack_unpack in U.
  pose proof (read_numeric_app SHORT marker [b0; b1] rest U) as R.
  cbn [app] in R.
  assert (forall r, read_file (b0 :: b1 :: rest) = r ->
          r = if negb (marker =? 0) then (Err DeprecationWarning, rest)
              else (header <- header_fields ;; read_sections header)%parser
                     rest) as K.
  { intros r <-. unfold read_file, parse_header.
    unfold bind at 1 2. rewrite R.
    destruct (negb (marker =? 0)); reflexivity. }
  split.
  - intros N. rewrite (K _ eq_refl).
    destruct (Z.eqb_spec marker 0); [contradiction|reflexivity].
  - intros ->. rewrite (K _ eq_refl). cbn [Z.eqb negb]. split; [reflexivity|].
    destruct ((header <- header_fields ;; read_sections header)%parser rest)
      as [[f|e] b] eqn:E; [discriminate|].
    cbn. intros [= ->]. revert E.
    change ((header <- header_fields ;; read_sections header)%parser rest
            = (Err DeprecationWarning, b) -> False).
    intros E.
    eapply (raises_only_bind (fun e => e <> DeprecationWarning));
      [apply header_fields_raises | apply read_sections_raises | exact E
      | reflexivity].
Qed.

Lemma legacy_format_rejected_witness :
  read_file [x01; x00; x05; x00] = (Err DeprecationWarning, [x05; x00])
  /\ fst (read_file [x00; x00; x03]) <> Err DeprecationWarning.
Proof.
  split.
  - apply (proj1 (legacy_format_rejected x01 x00 [x05; x00] 1 eq_refl)).
    discriminate.
  - apply (proj2 (legacy_format_rejected x00 x00 [x03] 0 eq_refl)).
    reflexivity.
Defined.

(** ** The writer's primitives *)

Lemma pack_packed (fmt : Struct) (v : Z) :
  min_value fmt <= v <= max_value fmt -> pack fmt v = Ok (packed fmt v).
Proof.
  intros R. unfold pack. apply in_range_iff in R. now rewrite R.
Qed.

Lemma pack_out_of_range (fmt : Struct) (v : Z) :
  max_value fmt < v \/ v < min_value fmt -> pack fmt v = Err StructError.
Proof.
  intros R. unfold pack. destruct (in_range fmt v) eqn:E; [|reflexivity].
  apply in_range_iff in E. lia.
Qed.

Lemma pack_is_packed (fmt : Struct) (v : Z) (bs : list byte) :
  pack fmt v = Ok bs -> bs = packed fmt v.
Proof.
  unfold pack. destruct (in_range fmt v); [|discriminate]. now intros [= <-].
Qed.

Lemma length_packed (fmt : Struct) (v : Z) :
  length (packed fmt v) = Z.to_nat (size fmt).
Proof. apply length_le_bytes. Qed.

Lemma encode_numeric_eq (fmt : Struct) (v : Z) :
  encode_numeric fmt v =
  match pack fmt v with
  | Ok bs => (Ok tt, bs)
  | Err e => (Err e, [])
  end.
Proof.
  unfold encode_numeric, wbind, eval, write.
  destruct (pack fmt v); reflexivity.
Qed.

Lemma encode_numeric_ok (fmt : Struct) (v : Z) :
  min_value fmt <= v <= max_value fmt ->
  encode_numeric fmt v = (Ok tt, packed fmt v).
Proof. intros R. now rewrite encode_numeric_eq, pack_packed. Qed.

Lemma encode_numeric_inv (fmt : Struct) (v : Z) (out : list byte) :
  encode_numeric fmt v = (Ok tt, out) ->
  pack fmt v = Ok out.
Proof.
  rewrite encode_numeric_eq. destruct (pack fmt v); [|discriminate].
  now intros [= <-].
Qed.

Lemma wbind_ok {A B : Type} (w : Writer A) (k : A -> Writer B) (b : B)
      (out : list byte) :
  wbind w k = (Ok b, out) ->
  exists a o1 o2, w = (Ok a, o1) /\ k a = (Ok b, o2) /\ out = o1 ++ o2.
Proof.
  unfold wbind. destruct w as [[a|e] o1]; [|discriminate].
  destruct (k a) as [r o2] eqn:K. intros [= -> <-].
  exists a, o1, o2. auto.
Qed.

Lemma wbind_run {A B : Type} (w : Writer A) (k : A -> Writer B) (a : A)
      (o1 : list byte) :
  w = (Ok a, o1) -> wbind w k = (fst (k a), o1 ++ snd (k a)).
Proof. intros ->. unfold wbind. now destruct (k a). Qed.

(** ** Text *)

Lemma encode_char_scalar (c : N) :
  scalar_value c -> exists bs, utf8_encode_char c = Ok bs.
Proof.
  unfold scalar_value, utf8_encode_char. intros H.
  destruct (N.ltb_spec c 0x80); [eauto|].
  destruct (N.ltb_spec c 0x800); [eauto|].
  destruct (N.ltb_spec c 0x10000).
  - destruct (N.leb_spec 0xD800 c); destruct (N.leb_spec c 0xDFFF);
      cbn [andb]; eauto. lia.
  - destruct (N.ltb_spec c 0x110000); [eauto|lia].
Qed.

Lemma encode_scalars (s : str) :
  Forall scalar_value s -> exists bs, encode s = Ok bs.
Proof.
  induction 1 as [|c s Hc _ (bs' & IH)]; cbn [encode]; [eauto|].
  destruct (encode_char_scalar c Hc) as (bs & ->). rewrite IH. eauto.
Qed.

Lemma encode_string_ok (s : str) :
  encodable s ->
  exists bs, encode s = Ok bs
             /\ encode_string s
                = (Ok tt, packed INT (Z.of_nat (length s)) ++ bs).
Proof.
  intros (Hs & Hl). destruct (encode_scalars s Hs) as (bs & E).
  exists bs. split; [exact E|].
  unfold encode_string.
  rewrite (wbind_run _ _ tt (packed INT (Z.of_nat (length s)))).
  - rewrite E. reflexivity.
  - apply encode_numeric_ok.
    assert (min_value INT < 0) by reflexivity. lia.
Qed.

Lemma wbind_seq {A B : Type} (w : Writer A) (k : A -> Writer B) (a : A)
      (b : B) (o1 o2 : list byte) :
  w = (Ok a, o1) -> k a = (Ok b, o2) -> wbind w k = (Ok b, o1 ++ o2).
Proof. intros -> K. unfold wbind. now rewrite K. Qed.

Lemma wbind_err {A B : Type} (w : Writer A) (k : A -> Writer B) (e : error)
      (o : list byte) :
  w = (Err e, o) -> wbind w k = (Err e, o).
Proof. now intros ->. Qed.

Lemma b2z_signed_byte (b : bool) :
  min_value BYTE <= Z.b2z b <= max_value BYTE.
Proof. destruct b; cbv; split; discriminate. Qed.

Lemma signed_byte_range (v : Z) :
  signed_byte v <-> min_value BYTE <= v <= max_value BYTE.
Proof. reflexivity. Qed.

Lemma write_instrument_list_ok (l : list Instrument) :
  Forall instrument_fits l ->
  exists out, write_instrument_list l = (Ok tt, out).
Proof.
  induction 1 as [|i l (Hn & Hf & Hp) _ (out & IH)];
    cbn [write_instrument_list]; [unfold wret; eauto|].
  destruct (encode_string_ok _ Hn) as (bn & _ & En).
  destruct (encode_string_ok _ Hf) as (bf & _ & Ef).
  eexists.
  eapply wbind_seq; [exact En|].
  eapply wbind_seq; [exact Ef|].
  eapply wbind_seq; [apply encode_numeric_ok, signed_byte_range, Hp|].
  eapply wbind_seq; [apply encode_numeric_ok, b2z_signed_byte|].
  exact IH.
Qed.

(** ** Claims about the writer *)

(** C10, as amended.  [write_instruments] succeeds when the file has at
    most 127 instruments and each of them fits its fields (a pitch in
    -128..127, a name and a file name that UTF-8 can encode); with 128
    instruments or more it raises [struct.error] on the count, before
    anything is written. *)
Theorem instrument_count_limit (f : File) :
  (Z.of_nat (length (instruments f)) <= 127 ->
   Forall instrument_fits (instruments f) ->
   exists out, write_instruments f = (Ok tt, out))
  /\ (128 <= Z.of_nat (length (instruments f)) ->
      write_instruments f = (Err StructError, [])).
Proof.
  unfold write_instruments. split.
  - intros L F. destruct (write_instrument_list_ok _ F) as (out & W).
    eexists. eapply wbind_seq; [|exact W].
    apply encode_numeric_ok. cbv [min_value max_value bits size]. cbn. lia.
  - intros L. apply wbind_err. rewrite encode_numeric_eq.
    rewrite pack_out_of_range; [reflexivity|].
    left. cbv [max_value bits size]. cbn. lia.
Qed.

Lemma instrument_count_limit_witness :
  (exists out, write_instruments (mkFile default_header [] []
                 [mkInstrument 0 [0x41%N] e_acute 100 true])
               = (Ok tt, out))
  /\ write_instruments
       (mkFile default_header [] []
               (repeat (mkInstrument 0 [] [] 0 false) 128))
     = (Err StructError, []).
Proof.
  split.
  - apply (proj1 (instrument_count_limit _)).
    + cbn. lia.
    + repeat constructor; cbv; try discriminate; intuition discriminate.
  - apply (proj2 (instrument_count_limit _)). cbn. lia.
Defined.

(** C10 as stated fails: a single instrument of pitch 200 does not pack
    into the signed [BYTE]. *)
Lemma instrument_count_limit_counterexample :
  Z.of_nat (length (instruments high_pitch_file)) <= 127
  /\ fst (write_instruments high_pitch_file) = Err StructError.
Proof. split; [cbn; lia | reflexivity]. Qed.

(** C2: the code at the notes [(5,1,..), (5,0,..), (2,3,..)].  The loop
    starts from the tick of the first note of the unsorted list, so it first
    yields an empty chord at tick 5; and the last chord is yielded as
    collected, without the sort by layer that the other chords get.  The
    ticks yielded are not ascending and the last chord is not in layer
    order. *)
Theorem chord_grouping_of_unordered_notes :
  File_iter unordered_file
  = [ (5, []);
      (2, [mkNote 2 3 0 0]);
      (5, [mkNote 5 1 0 0; mkNote 5 0 0 0]) ]
  /\ ~ StronglySorted Z.lt (map fst (File_iter unordered_file))
  /\ ~ Forall (fun pair => layer_ordered (snd pair))
              (File_iter unordered_file).
Proof.
  assert (File_iter unordered_file
          = [ (5, []);
              (2, [mkNote 2 3 0 0]);
              (5, [mkNote 5 1 0 0; mkNote 5 0 0 0]) ]) as E by reflexivity.
  split; [exact E|]. rewrite E. cbn [map fst]. split.
  - intros S. inversion S as [|? ? _ F]; subst.
    inversion F as [|? ? L _]; subst. lia.
  - intros F. inversion F as [|? ? _ F1]; subst.
    inversion F1 as [|? ? _ F2]; subst.
    inversion F2 as [|? ? L _]; subst.
    unfold layer_ordered in L. cbn [snd] in L.
    inversion L as [|? ? _ L1]; subst.
    inversion L1 as [|? ? L2 _]; subst. cbn in L2. lia.
Qed.

(** C8: the code at the string U+00E9.  [encode_string] writes the number
    of characters, 1, in front of the two bytes of the UTF-8 text;
    [read_string] then takes one byte and fails to decode it, leaving the
    second byte in the stream. *)
Theorem string_prefix_counts_characters :
  encode_string e_acute = (Ok tt, [x01; x00; x00; x00; xc3; xa9])
  /\ read_string [x01; x00; x00; x00; xc3; xa9]
     = (Err UnicodeDecodeError, [xa9]).
Proof. split; reflexivity. Qed.

Lemma last_app_one {A : Type} (l : list A) (x d : A) : last (l ++ [x]) d = x.
Proof.
  induction l as [|y l IH]; [reflexivity|].
  cbn [app]. destruct (l ++ [x]) eqn:E.
  - destruct l; discriminate.
  - cbn [last]. exact IH.
Qed.

Lemma tick_ordered_last (ns : list Note) (n : Note) :
  tick_ordered (ns ++ [n]) -> Forall (fun m => tick m <= tick n) (ns ++ [n]).
Proof.
  unfold tick_ordered. induction ns as [|m ns IH]; cbn [app]; intros S.
  - repeat constructor. lia.
  - inversion S as [|? ? S' F]; subst. constructor; [|auto].
    rewrite Forall_forall in F. apply F, in_or_app. right. now left.
Qed.

(** The first eight bytes of a written header. *)
Lemma write_header_prefix (f : File) (out : list byte) :
  write_header f = (Ok tt, out) ->
  exists rest,
    out = packed SHORT 0 ++ packed BYTE (version (header f))
          ++ packed BYTE (default_instruments (header f))
          ++ packed SHORT (song_length (header f))
          ++ packed SHORT (song_layers (header f)) ++ rest
    /\ pack SHORT (song_length (header f))
       = Ok (packed SHORT (song_length (header f)))
    /\ pack SHORT (song_layers (header f))
       = Ok (packed SHORT (song_layers (header f))).
Proof.
  unfold write_header. intros H.
  apply wbind_ok in H as ([] & o1 & r1 & H1 & H & ->).
  apply wbind_ok in H as ([] & o2 & r2 & H2 & H & ->).
  apply wbind_ok in H as ([] & o3 & r3 & H3 & H & ->).
  apply wbind_ok in H as ([] & o4 & r4 & H4 & H & ->).
  apply wbind_ok in H as ([] & o5 & r5 & H5 & H & ->).
  apply encode_numeric_inv in H1, H2, H3, H4, H5.
  rewrite (pack_is_packed _ _ _ H1), (pack_is_packed _ _ _ H2),
    (pack_is_packed _ _ _ H3).
  pose proof (pack_is_packed _ _ _ H4) as E4.
  pose proof (pack_is_packed _ _ _ H5) as E5. subst o4 o5.
  exists r5. auto.
Qed.

(** C3, as amended.  [save] runs [update_header] and encodes the result.
    [update_header] always sets [song_layers] to the number of layers; it
    sets [song_length] to the tick of the last note of the list when there
    are notes -- the greatest tick when the list is in tick order -- and
    leaves [song_length] as it was when there are none.  The stream that
    [save] writes carries these two values at offsets 4 and 6. *)
Theorem header_recomputed_on_save (f : File) :
  let h := header (update_header f) in
  song_layers h = Z.of_nat (length (layers f))
  /\ (notes f = [] -> song_length h = song_length (header f))
  /\ (forall ns n, notes f = ns ++ [n] ->
        song_length h = tick n
        /\ (tick_ordered (notes f) ->
            Forall (fun m => tick m <= tick n) (notes f)))
  /\ (forall out, save f = (Ok tt, out) ->
        read_numeric SHORT (skipn 4 out) = (Ok (song_length h), skipn 6 out)
        /\ read_numeric SHORT (skipn 6 out)
           = (Ok (song_layers h), skipn 8 out)).
Proof.
  cbn zeta. split; [reflexivity|]. split; [|split].
  - intros E. unfold update_header. now rewrite E.
  - intros ns n E. split.
    + unfold update_header.
      destruct (notes f) as [|m ms]; [destruct ns; discriminate|].
      cbn. replace (last ms m) with (last (m :: ms) m)
        by (destruct ms; reflexivity).
      rewrite E. now rewrite last_app_one.
    + rewrite E. apply tick_ordered_last.
  - intros out S. unfold save, encode_file in S.
    apply wbind_ok in S as ([] & o1 & r1 & H & _ & ->).
    apply write_header_prefix in H as (rest & -> & P1 & P2).
    set (h := header (update_header f)) in *.
    assert (forall (a b c d : list byte) tl,
               length a = 2%nat -> length b = 1%nat -> length c = 1%nat ->
               length d = 2%nat ->
               skipn 4 (a ++ b ++ c ++ tl) = tl
               /\ skipn 6 (a ++ b ++ c ++ d ++ tl) = tl) as K.
    { intros a b c d tl La Lb Lc Ld. split.
      - rewrite 2 app_assoc, skipn_app, skipn_all2;
          rewrite !length_app, La, Lb, Lc; [reflexivity|lia].
      - rewrite 3 app_assoc, skipn_app, skipn_all2;
          rewrite !length_app, La, Lb, Lc, Ld; [reflexivity|lia]. }
    assert (forall (a b c d e : list byte) tl,
               length a = 2%nat -> length b = 1%nat -> length c = 1%nat ->
               length d = 2%nat -> length e = 2%nat ->
               skipn 8 (a ++ b ++ c ++ d ++ e ++ tl) = tl) as K8.
    { intros a b c d e tl La Lb Lc Ld Le.
      rewrite 4 app_assoc, skipn_app, skipn_all2;
        rewrite !length_app, La, Lb, Lc, Ld, Le; [reflexivity|lia]. }
    repeat rewrite <- app_assoc.
    pose proof (fun v => length_packed SHORT v : _ = 2%nat) as L2.
    pose proof (fun v => length_packed BYTE v : _ = 1%nat) as L1.
    rewrite (proj1 (K _ _ _ (packed SHORT 0) _
                      (L2 _) (L1 _) (L1 _) (L2 _))).
    rewrite (proj2 (K _ _ _ _ _ (L2 _) (L1 _) (L1 _) (L2 _))).
    rewrite (K8 _ _ _ _ _ _ (L2 _) (L1 _) (L1 _) (L2 _) (L2 _)).
    split; now apply read_numeric_app.
Qed.

Lemma header_recomputed_on_save_witness :
  song_length (header (update_header stale_notes_file)) = 3
  /\ Forall (fun m => tick m <= 3) (notes stale_notes_file)
  /\ read_numeric SHORT (skipn 4 (snd (save stale_notes_file)))
     = (Ok 3, skipn 6 (snd (save stale_notes_file))).
Proof.
  pose proof (header_recomputed_on_save stale_notes_file) as (_ & _ & H & S).
  destruct (H [mkNote 1 0 0 40] (mkNote 3 0 0 42) eq_refl) as (H1 & H2).
  split; [exact H1|]. split.
  - apply H2. repeat constructor; cbn; lia.
  - apply (S (snd (save stale_notes_file))). reflexivity.
Defined.

(** C3 as stated fails for a document without notes: [update_header] keeps
    the stale song length, and [save] writes it. *)
Lemma header_recomputed_counterexample :
  notes stale_file = []
  /\ song_length (header (update_header stale_file)) <> 0
  /\ fst (read_numeric SHORT (skipn 4 (snd (save stale_file)))) <> Ok 0.
Proof. repeat split; cbv; discriminate. Qed.

(** ** Reading back what was written *)

Lemma reads_ret {A : Type} (a : A) : reads (ret a) a [].
Proof. intros rest. reflexivity. Qed.

Lemma reads_bind {A B : Type} (p : Parser A) (k : A -> Parser B)
      (a : A) (b : B) (o1 o2 : list byte) :
  reads p a o1 -> reads (k a) b o2 -> reads (bind p k) b (o1 ++ o2).
Proof.
  intros Hp Hk rest. unfold bind. rewrite <- app_assoc, Hp. apply Hk.
Qed.

Lemma reads_bind_ret {A B : Type} (p : Parser A) (g : A -> B) (a : A)
      (o : list byte) :
  reads p a o -> reads (bind p (fun x => ret (g x))) (g a) o.
Proof. intros Hp rest. unfold bind. now rewrite Hp. Qed.

Lemma reads_eq {A : Type} (p : Parser A) (a b : A) (bs : list byte) :
  reads p a bs -> a = b -> reads p b bs.
Proof. now intros H <-. Qed.

Lemma reads_numeric (fmt : Struct) (v : Z) :
  min_value fmt <= v <= max_value fmt ->
  reads (read_numeric fmt) v (packed fmt v).
Proof. intros R rest. now apply read_numeric_app, pack_packed. Qed.

Lemma encode_ascii (s : str) :
  ascii s -> encode s = Ok (map byte_of_N s).
Proof.
  induction 1 as [|c s Hc _ IH]; [reflexivity|].
  cbn [encode map]. unfold utf8_encode_char.
  destruct (N.ltb_spec c 0x80); [|lia]. now rewrite IH.
Qed.

Lemma decode_ascii (s : str) :
  ascii s -> decode (map byte_of_N s) = Ok s.
Proof.
  induction 1 as [|c s Hc _ IH]; [reflexivity|].
  cbn [map decode]. rewrite to_N_byte_of_N by lia.
  destruct (N.ltb_spec c 0x80); [|lia]. now rewrite IH.
Qed.

Lemma read_exact (bs rest : list byte) :
  read (Z.of_nat (length bs)) (bs ++ rest) = (Ok bs, rest).
Proof.
  unfold read.
  destruct (Z.ltb_spec (Z.of_nat (length bs)) (-1)); [lia|].
  destruct (Z.eqb_spec (Z.of_nat (length bs)) (-1)); [lia|].
  rewrite Nat2Z.id.
  rewrite firstn_app, skipn_app, Nat.sub_diag, firstn_all, skipn_all.
  cbn. now rewrite app_nil_r.
Qed.

(** A plain string is written as its length and its bytes, and read back. *)
Lemma string_written (s : str) :
  plain s ->
  let bs := packed INT (Z.of_nat (length s)) ++ map byte_of_N s in
  encode_string s = (Ok tt, bs) /\ reads read_string s bs.
Proof.
  intros (Ha & Hl). cbn zeta.
  assert (min_value INT <= Z.of_nat (length s) <= max_value INT) as R.
  { assert (min_value INT < 0) by reflexivity. lia. }
  split.
  - unfold encode_string.
    eapply wbind_seq; [now apply encode_numeric_ok|].
    rewrite encode_ascii by assumption. reflexivity.
  - intros rest. unfold read_string, bind.
    rewrite <- app_assoc, (reads_numeric INT _ R).
    rewrite <- (length_map byte_of_N s), read_exact.
    unfold lift. now rewrite decode_ascii.
Qed.

Lemma layers_written (ls : list Layer) (i : Z) :
  Forall layer_fits ls -> layers_numbered i ls ->
  exists bs, write_layer_list ls = (Ok tt, bs)
             /\ reads (parse_layers_from i (length ls)) ls bs.
Proof.
  intros F. revert i.
  induction F as [|l ls (Hn & Hv & Hp) _ IH]; intros i N.
  - exists []. split; [reflexivity|apply reads_ret].
  - destruct N as (Hi & N). destruct (IH _ N) as (bs & W & R).
    destruct (string_written _ Hn) as (Ws & Rs).
    eexists. split.
    + cbn [write_layer_list].
      eapply wbind_seq; [exact Ws|].
      eapply wbind_seq; [apply encode_numeric_ok, Hv|].
      eapply wbind_seq; [apply encode_numeric_ok, Hp|].
      exact W.
    + cbn [length parse_layers_from].
      apply reads_bind with (a := layer_name l); [exact Rs|].
      apply reads_bind with (a := volume l); [apply reads_numeric, Hv|].
      apply reads_bind with (a := panning l); [apply reads_numeric, Hp|].
      replace (l :: ls) with (mkLayer i (layer_name l) (volume l) (panning l)
                                :: ls)
        by (destruct l; cbn in *; congruence).
      apply reads_bind_ret with (g := fun rest => _ :: rest). exact R.
Qed.

Lemma b2z_eqb_1 (b : bool) : (Z.b2z b =? 1) = b.
Proof. now destruct b. Qed.

Lemma instrument_list_written (l : list Instrument) (i : Z) :
  Forall instrument_plain l -> instruments_numbered i l ->
  exists bs, write_instrument_list l = (Ok tt, bs)
             /\ reads (parse_instruments_from i (length l)) l bs.
Proof.
  intros F. revert i.
  induction F as [|x l (Hn & Hf & Hp) _ IH]; intros i N.
  - exists []. split; [reflexivity|apply reads_ret].
  - destruct N as (Hi & N). destruct (IH _ N) as (bs & W & R).
    destruct (string_written _ Hn) as (Wn & Rn).
    destruct (string_written _ Hf) as (Wf & Rf).
    eexists. split.
    + cbn [write_instrument_list].
      eapply wbind_seq; [exact Wn|].
      eapply wbind_seq; [exact Wf|].
      eapply wbind_seq; [apply encode_numeric_ok, Hp|].
      eapply wbind_seq; [apply encode_numeric_ok, b2z_signed_byte|].
      exact W.
    + cbn [length parse_instruments_from].
      apply reads_bind with (a := instrument_name x); [exact Rn|].
      apply reads_bind with (a := file x); [exact Rf|].
      apply reads_bind with (a := pitch x); [apply reads_numeric, Hp|].
      apply reads_bind with (a := Z.b2z (press_key x));
        [apply reads_numeric, b2z_signed_byte|].
      replace (x :: l)
        with (mkInstrument i (instrument_name x) (file x) (pitch x)
                (Z.b2z (press_key x) =? 1) :: l)
        by (rewrite b2z_eqb_1; destruct x; cbn in *; congruence).
      apply reads_bind_ret with (g := fun rest => _ :: rest). exact R.
Qed.

Lemma instruments_written (f : File) :
  Forall instrument_plain (instruments f) ->
  instruments_numbered 0 (instruments f) ->
  Z.of_nat (length (instruments f)) <= 127 ->
  exists bs, write_instruments f = (Ok tt, bs)
             /\ reads parse_instruments (instruments f) bs.
Proof.
  intros F N L. destruct (instrument_list_written _ 0 F N) as (bs & W & R).
  assert (min_value BYTE <= Z.of_nat (length (instruments f))
          <= max_value BYTE) as C.
  { assert (min_value BYTE < 0) by reflexivity.
    assert (max_value BYTE = 127) by reflexivity. lia. }
  eexists. split.
  - unfold write_instruments.
    eapply wbind_seq; [apply encode_numeric_ok, C|exact W].
  - unfold parse_instruments.
    eapply reads_bind; [apply reads_numeric, C|].
    now rewrite Nat2Z.id.
Qed.

Lemma header_written (f : File) :
  header_fits (header f) ->
  exists bs, write_header f = (Ok tt, bs)
             /\ reads parse_header (header f) bs.
Proof.
  set (h := header f).
  intros (Hv & Hd & Hlen & Hlay & Hname & Hauth & Horig & Hdesc
          & (raw & T1 & T2 & T3) & Hasd & Hts & Hms & Hlc & Hrc & Hba & Hbr
          & Horg).
  destruct (string_written _ Hname) as (W1 & R1).
  destruct (string_written _ Hauth) as (W2 & R2).
  destruct (string_written _ Horig) as (W3 & R3).
  destruct (string_written _ Hdesc) as (W4 & R4).
  destruct (string_written _ Horg) as (W5 & R5).
  assert (min_value SHORT <= 0 <= max_value SHORT) as Z0
      by (split; discriminate).
  eexists. split.
  - unfold write_header. fold h. cbn zeta.
    eapply wbind_seq; [apply encode_numeric_ok, Z0|].
    eapply wbind_seq; [apply encode_numeric_ok, Hv|].
    eapply wbind_seq; [apply encode_numeric_ok, Hd|].
    eapply wbind_seq; [apply encode_numeric_ok, Hlen|].
    eapply wbind_seq; [apply encode_numeric_ok, Hlay|].
    eapply wbind_seq; [exact W1|].
    eapply wbind_seq; [exact W2|].
    eapply wbind_seq; [exact W3|].
    eapply wbind_seq; [exact W4|].
    eapply wbind_seq;
      [eapply wbind_seq;
       [rewrite T1; reflexivity|apply encode_numeric_ok, T2]|].
    eapply wbind_seq; [apply encode_numeric_ok, b2z_signed_byte|].
    eapply wbind_seq; [apply encode_numeric_ok, Hasd|].
    eapply wbind_seq; [apply encode_numeric_ok, Hts|].
    eapply wbind_seq; [apply encode_numeric_ok, Hms|].
    eapply wbind_seq; [apply encode_numeric_ok, Hlc|].
    eapply wbind_seq; [apply encode_numeric_ok, Hrc|].
    eapply wbind_seq; [apply encode_numeric_ok, Hba|].
    eapply wbind_seq; [apply encode_numeric_ok, Hbr|].
    exact W5.
  - apply reads_eq with
      (a := mkHeader (version h) (default_instruments h) (song_length h)
         (song_layers h) (song_name h) (song_author h) (original_author h)
         (description h)
         (PrimFloat.div (float_of_int raw) (float_of_int 100))
         (Z.b2z (auto_save h) =? 1) (auto_save_duration h)
         (time_signature h) (minutes_spent h) (left_clicks h)
         (right_clicks h) (blocks_added h) (blocks_removed h)
         (song_origin h));
      [|rewrite T3, b2z_eqb_1; unfold h; destruct (header f); reflexivity].
    unfold parse_header.
    apply reads_bind with (a := 0); [apply reads_numeric, Z0|].
    cbn [Z.eqb negb]. unfold header_fields.
    apply reads_bind with (a := version h); [apply reads_numeric, Hv|].
    apply reads_bind with (a := default_instruments h);
      [apply reads_numeric, Hd|].
    apply reads_bind with (a := song_length h); [apply reads_numeric, Hlen|].
    apply reads_bind with (a := song_layers h); [apply reads_numeric, Hlay|].
    apply reads_bind with (a := song_name h); [exact R1|].
    apply reads_bind with (a := song_author h); [exact R2|].
    apply reads_bind with (a := original_author h); [exact R3|].
    apply reads_bind with (a := description h); [exact R4|].
    apply reads_bind with (a := raw); [apply reads_numeric, T2|].
    apply reads_bind with (a := Z.b2z (auto_save h));
      [apply reads_numeric, b2z_signed_byte|].
    apply reads_bind with (a := auto_save_duration h);
      [apply reads_numeric, Hasd|].
    apply reads_bind with (a := time_signature h);
      [apply reads_numeric, Hts|].
    apply reads_bind with (a := minutes_spent h); [apply reads_numeric, Hms|].
    apply reads_bind with (a := left_clicks h); [apply reads_numeric, Hlc|].
    apply reads_bind with (a := right_clicks h); [apply reads_numeric, Hrc|].
    apply reads_bind with (a := blocks_added h); [apply reads_numeric, Hba|].
    apply reads_bind with (a := blocks_removed h);
      [apply reads_numeric, Hbr|].
    apply reads_bind_ret
      with (g := fun s =>
                   mkHeader (version h) (default_instruments h)
                     (song_length h) (song_layers h) (song_name h)
                     (song_author h) (original_author h) (description h)
                     (PrimFloat.div (float_of_int raw) (float_of_int 100))
                     (Z.b2z (auto_save h) =? 1) (auto_save_duration h)
                     (time_signature h) (minutes_spent h) (left_clicks h)
                     (right_clicks h) (blocks_added h) (blocks_removed h) s).
    exact R5.
Qed.

(** ** Chord grouping of notes that are already in order *)

Lemma sorted_ordered {A : Type} (key : A -> Z) (l : list A) :
  StronglySorted (fun a b => key a <= key b) l -> sorted key l = l.
Proof.
  induction 1 as [|x l S IH F]; [reflexivity|].
  unfold sorted in *. cbn [fold_right]. rewrite IH.
  destruct l as [|y l]; [reflexivity|]. cbn [insert_by].
  inversion F; subst. destruct (Z.leb_spec (key x) (key y)); [reflexivity|lia].
Qed.

Lemma grid_ordered_ticks (ns : list Note) (pt pl : Z) :
  grid_ordered pt pl ns ->
  Forall (fun n => pt <= tick n) ns /\ tick_ordered ns.
Proof.
  revert pt pl. induction ns as [|n ns IH]; intros pt pl G.
  - split; constructor.
  - destruct G as (_ & _ & _ & D & G).
    destruct (IH _ _ G) as (F & S).
    assert (pt <= tick n) by lia. split.
    + constructor; [assumption|].
      eapply Forall_impl; [|exact F]. cbn. intros; lia.
    + constructor; assumption.
Qed.

Lemma chords_of_cons (n : Note) (ns : list Note) :
  chords_of (n :: ns) = push (tick n) [n] (chords_of ns).
Proof.
  cbn [chords_of]. unfold push.
  destruct (chords_of ns) as [|[t c] g]; [reflexivity|].
  rewrite (Z.eqb_sym t). destruct (Z.eqb_spec (tick n) t) as [->|];
    reflexivity.
Qed.

Lemma push_push (ct : Z) (c1 c2 : list Note) (g : list (Z * list Note)) :
  push ct c1 (push ct c2 g) = push ct (c1 ++ c2) g.
Proof.
  unfold push. destruct g as [|[t c] g].
  - now rewrite Z.eqb_refl.
  - destruct (Z.eqb_spec t ct) as [->|]; rewrite Z.eqb_refl.
    + now rewrite app_assoc.
    + reflexivity.
Qed.

Lemma push_other (ct t : Z) (c1 c2 : list Note) (g : list (Z * list Note)) :
  t <> ct -> push ct c1 (push t c2 g) = (ct, c1) :: push t c2 g.
Proof.
  intros N. unfold push at 1.
  assert (exists c g', push t c2 g = (t, c) :: g') as (c & g' & ->).
  { unfold push. destruct g as [|[t' c'] g]; [eauto|].
    destruct (t' =? t); eauto. }
  destruct (Z.eqb_spec t ct); [contradiction|reflexivity].
Qed.

Lemma layer_ordered_snoc (chord : list Note) (pl : Z) (n : Note) :
  layer_ordered chord -> Forall (fun m => layer m <= pl) chord ->
  pl < layer n ->
  layer_ordered (chord ++ [n])
  /\ Forall (fun m => layer m <= layer n) (chord ++ [n]).
Proof.
  unfold layer_ordered. intros S F L. split.
  - induction S as [|x l S IH Fx]; cbn [app].
    + repeat constructor.
    + inversion F; subst. constructor; [auto|].
      apply Forall_app. split; [assumption|]. repeat constructor. lia.
  - apply Forall_app. split.
    + eapply Forall_impl; [|exact F]. cbn; intros; lia.
    + repeat constructor. lia.
Qed.

(** On notes in order, the loop of [__iter__] that holds the chord [chord]
    of tick [ct] yields the chords of the remaining notes behind that
    chord. *)
Lemma iter_loop_ordered (ns : list Note) (ct pl : Z) (chord : list Note) :
  layer_ordered chord -> Forall (fun m => layer m <= pl) chord ->
  grid_ordered ct pl ns ->
  iter_loop ns ct chord = push ct chord (chords_of ns).
Proof.
  revert ct pl chord. induction ns as [|n ns IH]; intros ct pl chord S F G.
  - reflexivity.
  - destruct G as (_ & _ & _ & D & G).
    cbn [iter_loop]. rewrite chords_of_cons.
    destruct (Z.eqb_spec (tick n) ct) as [E|E].
    + assert (pl < layer n) as L by lia.
      destruct (layer_ordered_snoc _ _ _ S F L) as (S' & F').
      rewrite E in G |- *.
      rewrite (IH ct (layer n) _ S' F' G). now rewrite push_push.
    + rewrite (sorted_ordered layer chord S).
      rewrite push_other by assumption. f_equal.
      apply (IH (tick n) (layer n) [n]); [repeat constructor| |exact G].
      repeat constructor. lia.
Qed.

Lemma File_iter_ordered (f : File) :
  grid_ordered (-1) (-1) (notes f) -> File_iter f = chords_of (notes f).
Proof.
  intros G. unfold File_iter.
  destruct (notes f) as [|n ns] eqn:E; [reflexivity|].
  destruct (grid_ordered_ticks _ _ _ G) as (_ & S).
  rewrite (sorted_ordered tick _ S).
  destruct G as (_ & _ & _ & _ & G).
  cbn [iter_loop]. rewrite Z.eqb_refl. cbn [app].
  rewrite chords_of_cons.
  apply (iter_loop_ordered ns (tick n) (layer n) [n]);
    [repeat constructor| |exact G].
  repeat constructor. lia.
Qed.

Lemma concat_push (ct : Z) (c : list Note) (g : list (Z * list Note)) :
  concat (map snd (push ct c g)) = c ++ concat (map snd g).
Proof.
  unfold push. destruct g as [|[t c'] g]; [reflexivity|].
  destruct (t =? ct); cbn; [now rewrite app_assoc|reflexivity].
Qed.

Lemma concat_chords_of (ns : list Note) :
  concat (map snd (chords_of ns)) = ns.
Proof.
  induction ns as [|n ns IH]; [reflexivity|].
  now rewrite chords_of_cons, concat_push, IH.
Qed.

Lemma chords_of_fit (ns : list Note) (pt pl : Z) :
  grid_ordered pt pl ns ->
  match chords_of ns with
  | [] => True
  | (t, c) :: g =>
      if t =? pt then chord_fits pt pl c /\ chords_fit pt g
      else chords_fit pt ((t, c) :: g)
  end.
Proof.
  revert pt pl. induction ns as [|n ns IH]; intros pt pl G; [exact I|].
  destruct G as (_ & Hi & Hk & D & G). specialize (IH _ _ G).
  rewrite chords_of_cons. unfold push.
  destruct (chords_of ns) as [|[t c] g].
  - destruct (Z.eqb_spec (tick n) pt) as [E|E]; cbn; intuition lia.
  - destruct (Z.eqb_spec t (tick n)) as [->|N];
      destruct (Z.eqb_spec (tick n) pt) as [E|E];
      try rewrite E in *;
      cbn [app chord_fits chords_fit] in *; intuition lia.
Qed.

Lemma chords_of_grid (ns : list Note) :
  grid_ordered (-1) (-1) ns -> chords_fit (-1) (chords_of ns).
Proof.
  intros G. pose proof (chords_of_fit _ _ _ G) as H.
  destruct ns as [|n ns]; [exact I|].
  rewrite chords_of_cons in *.
  assert (exists c g, push (tick n) [n] (chords_of ns) = (tick n, c) :: g)
    as (c & g & E).
  { unfold push. destruct (chords_of ns) as [|[t c] g]; [eauto|].
    destruct (t =? tick n); eauto. }
  rewrite E in *. destruct G as (T & _).
  destruct (Z.eqb_spec (tick n) (-1)); [lia|exact H].
Qed.

(** ** The note grid, written and read back *)

Lemma short_jump (d : Z) :
  0 < d <= 32767 -> min_value SHORT <= d <= max_value SHORT.
Proof.
  assert (min_value SHORT < 0) by reflexivity.
  assert (max_value SHORT = 32767) by reflexivity. lia.
Qed.

Lemma write_chord_fits (c : list Note) (t pl : Z) :
  chord_fits t pl c -> write_chord c pl = (Ok tt, chord_bytes pl c).
Proof.
  revert pl. induction c as [|n c IH]; intros pl F; [reflexivity|].
  destruct F as (_ & L1 & L2 & Hi & Hk & F).
  cbn [write_chord chord_bytes].
  eapply wbind_seq; [apply encode_numeric_ok, short_jump; lia|].
  eapply wbind_seq; [apply encode_numeric_ok, Hi|].
  eapply wbind_seq; [apply encode_numeric_ok, Hk|].
  now apply IH.
Qed.

Lemma short_zero : min_value SHORT <= 0 <= max_value SHORT.
Proof. split; discriminate. Qed.

Lemma write_chords_fit (g : list (Z * list Note)) (pt : Z) :
  chords_fit pt g -> write_chords g pt = (Ok tt, chords_bytes pt g).
Proof.
  revert pt. induction g as [|[t c] g IH]; intros pt F; [reflexivity|].
  destruct F as (L1 & L2 & Fc & F).
  cbn [write_chords chords_bytes].
  eapply wbind_seq; [apply encode_numeric_ok, short_jump; lia|].
  eapply wbind_seq; [exact (write_chord_fits _ _ _ Fc)|].
  eapply wbind_seq; [apply encode_numeric_ok, short_zero|].
  now apply IH.
Qed.

Lemma jump_next_packed (value d : Z) (rest : buffer) :
  min_value SHORT <= d <= max_value SHORT ->
  jump_next value (packed SHORT d ++ rest)
  = (Ok (if d =? 0 then None else Some (value + d)), rest).
Proof.
  intros R. rewrite jump_next_eq, (reads_numeric SHORT d R). reflexivity.
Qed.

Lemma read_note_packed (n : Note) (rest : buffer) :
  signed_byte (instrument n) -> signed_byte (key n) ->
  read_note (tick n) (layer n)
    (packed BYTE (instrument n) ++ packed BYTE (key n) ++ rest)
  = (Ok n, rest).
Proof.
  intros Hi Hk. unfold read_note, bind, ret.
  rewrite (reads_numeric BYTE _ Hi), (reads_numeric BYTE _ Hk).
  now destruct n.
Qed.

Lemma parse_chord_written (c : list Note) (t pl : Z) (rest : buffer) :
  chord_fits t pl c ->
  exists fuel,
    parse_chord fuel t pl (chord_bytes pl c ++ packed SHORT 0 ++ rest)
    = Some (c, Ok tt, rest).
Proof.
  revert pl. induction c as [|n c IH]; intros pl F.
  - exists 1%nat. cbn [parse_chord chord_bytes app].
    now rewrite (jump_next_packed pl 0 rest short_zero).
  - destruct F as (<- & L1 & L2 & Hi & Hk & F).
    destruct (IH _ F) as (fuel & P). exists (S fuel).
    cbn [parse_chord chord_bytes]. repeat rewrite <- app_assoc.
    rewrite jump_next_packed by (apply short_jump; lia).
    destruct (Z.eqb_spec (layer n - pl) 0); [lia|].
    replace (pl + (layer n - pl)) with (layer n) by lia.
    rewrite (read_note_packed n _ Hi Hk), P. reflexivity.
Qed.

Lemma parse_ticks_written (g : list (Z * list Note)) (pt : Z)
      (rest : buffer) :
  chords_fit pt g ->
  exists fuel,
    parse_ticks fuel pt (chords_bytes pt g ++ packed SHORT 0 ++ rest)
    = Some (concat (map snd g), Ok tt, rest).
Proof.
  revert pt. induction g as [|[t c] g IH]; intros pt F.
  - exists 1%nat. cbn [parse_ticks chords_bytes app].
    now rewrite (jump_next_packed pt 0 rest short_zero).
  - destruct F as (L1 & L2 & Fc & F).
    destruct (IH _ F) as (fuel & P).
    destruct (parse_chord_written c t (-1)
                (chords_bytes t g ++ packed SHORT 0 ++ rest) Fc)
      as (fuel' & C).
    exists (S (Nat.max fuel fuel')).
    cbn [parse_ticks chords_bytes]. repeat rewrite <- app_assoc.
    rewrite jump_next_packed by (apply short_jump; lia).
    destruct (Z.eqb_spec (t - pt) 0); [lia|].
    replace (pt + (t - pt)) with t by lia.
    rewrite (parse_chord_more _ (Nat.max fuel fuel') _ _ _ _ C) by lia.
    rewrite (parse_ticks_more _ (Nat.max fuel fuel') _ _ _ P) by lia.
    reflexivity.
Qed.

Lemma notes_written (f : File) :
  grid_ordered (-1) (-1) (notes f) ->
  let bs := chords_bytes (-1) (chords_of (notes f)) ++ packed SHORT 0 in
  write_notes f = (Ok tt, bs) /\ reads (list_of parse_notes) (notes f) bs.
Proof.
  intros G. cbn zeta. pose proof (chords_of_grid _ G) as F. split.
  - unfold write_notes. rewrite (File_iter_ordered f G).
    eapply wbind_seq; [exact (write_chords_fit _ _ F)|].
    apply encode_numeric_ok, short_zero.
  - intros rest. rewrite <- app_assoc.
    destruct (parse_ticks_written _ _ rest F) as (fuel & P).
    unfold list_of. rewrite (parse_notes_is _ _ _ P).
    now rewrite concat_chords_of.
Qed.

(** ** Round trip *)

Lemma update_header_consistent (f : File) :
  header_consistent f -> update_header f = f.
Proof.
  intros (L & N). unfold update_header.
  destruct f as [h ns ls ins]. cbn in *. f_equal.
  destruct h. cbn in *. unfold set_song_layers, set_song_length.
  destruct ns; cbn; congruence.
Qed.

(** C1, as amended.  A document is written by [save] and read back by
    [read_file] as the same document with its header recomputed -- hence as
    itself when its counters were consistent -- provided the format can hold
    it: every number in the range of its field, text in ASCII, a tempo that
    is the hundredth of its stored integer, the notes held in strictly
    ascending (tick, layer) order from tick 0 and layer 0 with no jump above
    32767, at most 127 instruments, and layers and instruments numbered by
    position. *)
Theorem save_then_read (f : File) :
  storable f ->
  exists out,
    save f = (Ok tt, out)
    /\ read_file out = (Ok (update_header f), [])
    /\ (header_consistent f -> read_file out = (Ok f, [])).
Proof.
  intros (Hh & Hn & Hl & Hli & Hi & Hii & Hic).
  set (f' := update_header f) in *.
  destruct (header_written f' Hh) as (bh & Wh & Rh).
  destruct (notes_written f' Hn) as (Wn & Rn).
  destruct (layers_written _ 0 Hl Hli) as (bl & Wl & Rl).
  destruct (instruments_written f' Hi Hii Hic) as (bi & Wi & Ri).
  eexists. split.
  - unfold save, encode_file. fold f'.
    eapply wbind_seq; [exact Wh|].
    eapply wbind_seq; [exact Wn|].
    eapply wbind_seq; [exact Wl|].
    exact Wi.
  - assert (reads read_file f'
              (bh ++ (chords_bytes (-1) (chords_of (notes f'))
                      ++ packed SHORT 0) ++ bl ++ bi)) as R.
    { unfold read_file, read_sections.
      apply reads_bind with (a := header f'); [exact Rh|].
      apply reads_bind with (a := notes f'); [exact Rn|].
      apply reads_bind with (a := layers f').
      - unfold parse_layers. change (song_layers (header f'))
          with (Z.of_nat (length (layers f))).
        rewrite Nat2Z.id. exact Rl.
      - apply reads_bind_ret
          with (g := mkFile (header f') (notes f') (layers f')) in Ri.
        eapply reads_eq; [exact Ri|]. now destruct f'. }
    specialize (R []). rewrite app_nil_r in R. split; [exact R|].
    intros C. rewrite R. unfold f'.
    now rewrite (update_header_consistent f C).
Qed.

Lemma song_storable : storable song.
Proof.
  unfold storable, header_fits, tempo_stored, plain, ascii, signed_byte,
    signed_int.
  repeat match goal with
         | |- _ /\ _ => split
         | |- exists raw, _ => exists 1000
         | |- Forall _ _ => repeat constructor
         end;
    cbn; try reflexivity; try discriminate;
    try (unfold signed_byte; lia).
Qed.

Lemma save_then_read_witness :
  storable song
  /\ exists out, save song = (Ok tt, out)
                 /\ read_file out = (Ok (update_header song), []).
Proof.
  split; [exact song_storable|].
  destruct (save_then_read song song_storable) as (out & S & R & _).
  exists out. split; assumption.
Defined.

(** C1 as stated fails.  The identifier of a layer is not stored, and
    [read_file] numbers the layers by position: a layer held with the
    identifier 3 comes back with the identifier 0.  And a panning of 150
    does not fit the signed [BYTE]: the document is not written at all. *)
Lemma save_then_read_counterexample :
  (header_consistent renumbered_file
   /\ exists out, save renumbered_file = (Ok tt, out)
                  /\ (exists f, read_file out = (Ok f, []))
                  /\ fst (read_file out) <> Ok renumbered_file)
  /\ (header_consistent panned_file
      /\ fst (save panned_file) = Err StructError).
Proof.
  split; [|split; [split; reflexivity|reflexivity]].
  split; [split; reflexivity|].
  eexists. split; [reflexivity|]. split.
  - eexists. vm_compute. reflexivity.
  - intros H.
    apply (f_equal (fun r => match r with
                             | Ok f => map layer_id (layers f)
                             | Err _ => []
                             end)) in H.
    vm_compute in H. discriminate.
Qed.

(** C5, as amended.  For notes held in the order of ticks 0, 5, 5, 100,
    the two notes of tick 5 on layers 2 and 7, [write_notes] writes the
    tick-level deltas 1, 5 and 95 -- each tick minus the tick before, from
    -1 -- and no delta of 0; [parse_notes] reads the four notes back from
    what was written. *)
Theorem four_notes_grid (f : File) (n0 n1 n2 n3 : Note) :
  notes f = [n0; n1; n2; n3] ->
  tick n0 = 0 -> tick n1 = 5 -> tick n2 = 5 -> tick n3 = 100 ->
  layer n1 = 2 -> layer n2 = 7 ->
  0 <= layer n0 <= 32766 -> 0 <= layer n3 <= 32766 ->
  Forall (fun n => signed_byte (instrument n) /\ signed_byte (key n))
         (notes f) ->
  write_notes f = (Ok tt, grid_of_four n0 n1 n2 n3 1 5 95)
  /\ parse_notes (grid_of_four n0 n1 n2 n3 1 5 95)
     = ([n0; n1; n2; n3], Ok tt, []).
Proof.
  intros E T0 T1 T2 T3 L1 L2 L0 L3 B.
  rewrite E in B.
  inversion B as [|? ? (I0 & K0) B1]; subst.
  inversion B1 as [|? ? (I1 & K1) B2]; subst.
  inversion B2 as [|? ? (I2 & K2) B3]; subst.
  inversion B3 as [|? ? (I3 & K3) _]; subst.
  assert (grid_ordered (-1) (-1) (notes f)) as G.
  { rewrite E. cbn [grid_ordered]. rewrite T0, T1, T2, T3, L1, L2.
    unfold signed_byte in *. repeat split; lia. }
  destruct (notes_written f G) as (W & R).
  assert (chords_bytes (-1) (chords_of (notes f)) ++ packed SHORT 0
          = grid_of_four n0 n1 n2 n3 1 5 95) as C.
  { rewrite E. cbn [chords_of]. rewrite T0, T1, T2, T3. cbn [Z.eqb Pos.eqb].
    unfold grid_of_four. cbn [chords_bytes]. repeat rewrite <- app_assoc.
    reflexivity. }
  rewrite C in W, R. split; [exact W|].
  specialize (R []). rewrite app_nil_r in R.
  unfold list_of in R. rewrite E in R.
  destruct (parse_ticks_trace _ _ _ _
              (parse_notes_some (grid_of_four n0 n1 n2 n3 1 5 95)))
    as (_ & Hend).
  destruct (parse_notes (grid_of_four n0 n1 n2 n3 1 5 95))
    as [[ys [[]|e]] b]; [|discriminate].
  now injection R as -> ->.
Qed.

Lemma four_notes_grid_witness :
  write_notes four_notes_file
  = (Ok tt, grid_of_four (mkNote 0 0 1 40) (mkNote 5 2 1 41)
              (mkNote 5 7 2 42) (mkNote 100 0 3 43) 1 5 95)
  /\ parse_notes (grid_of_four (mkNote 0 0 1 40) (mkNote 5 2 1 41)
                    (mkNote 5 7 2 42) (mkNote 100 0 3 43) 1 5 95)
     = (four_notes, Ok tt, []).
Proof.
  apply (four_notes_grid four_notes_file
           (mkNote 0 0 1 40) (mkNote 5 2 1 41)
           (mkNote 5 7 2 42) (mkNote 100 0 3 43));
    try reflexivity; cbn; try lia.
  repeat constructor; cbn; lia.
Defined.

(** C5 as stated fails: the code does not write the deltas 1, 6, 96, and
    a grid with those deltas holds the ticks 0, 6, 6, 102. *)
Lemma four_notes_grid_counterexample :
  snd (write_notes four_notes_file)
  <> grid_of_four (mkNote 0 0 1 40) (mkNote 5 2 1 41)
       (mkNote 5 7 2 42) (mkNote 100 0 3 43) 1 6 96
  /\ map tick
       (yielded (parse_notes
                   (grid_of_four (mkNote 0 0 1 40) (mkNote 5 2 1 41)
                      (mkNote 5 7 2 42) (mkNote 100 0 3 43) 1 6 96)))
     = [0; 6; 6; 102].
Proof. split; [vm_compute; discriminate|reflexivity]. Qed.

(** ** Truncation *)

Lemma bind_ok {A B : Type} (p : Parser A) (k : A -> Parser B) (s r : buffer)
      (b : B) :
  bind p k s = (Ok b, r) ->
  exists a r1, p s = (Ok a, r1) /\ k a r1 = (Ok b, r).
Proof.
  unfold bind. destruct (p s) as [[a|e] r1]; [eauto|discriminate].
Qed.

Lemma cut_ret {A : Type} (m : bool) (clean : A -> Prop) (a : A) :
  cut m clean (ret a).
Proof.
  intros s a' r [= <- <-] c t -> _. left. exists c. auto.
Qed.

Lemma cut_raise {A : Type} (m : bool) (clean : A -> Prop) (e : error) :
  cut m clean (raise e).
Proof. intros s a r; discriminate. Qed.

(** Sequencing.  When the first parser may starve, what follows it must
    fail at once on the empty stream (or starve in turn, if allowed). *)
Lemma cut_bind {A B : Type} (m1 m2 : bool) (cA : A -> Prop) (cB : B -> Prop)
      (p : Parser A) (k : A -> Parser B) :
  cut m1 cA p ->
  (forall a, cut m2 cB (k a)) ->
  (m1 = true -> forall a, on_empty m2 (k a)) ->
  (forall a s b r, k a s = (Ok b, r) -> cB b -> cA a) ->
  cut m2 cB (bind p k).
Proof.
  intros Hp Hk He Hl s b r H c t Es Nt.
  apply bind_ok in H as (a & r1 & P & K).
  destruct (Hp s a r1 P c t Es Nt) as [(r1' & -> & P')|Bad].
  - destruct (Hk a _ b r K r1' t eq_refl Nt) as [(r' & -> & K')|Bad].
    + left. exists r'. split; [reflexivity|].
      unfold bind. now rewrite P'.
    + right. unfold bind. rewrite P'. exact Bad.
  - right. unfold bind. destruct (p c) as [[a'|e] rest].
    + destruct Bad as (M & ->). specialize (He M a'). unfold on_empty in He.
      destruct (k a' []) as [[b'|e] rest]; [exact He|]. left. exact He.
    + cbn in *. specialize (Hl a r1 b r K). tauto.
Qed.

Lemma on_empty_bind {A B : Type} (m : bool) (p : Parser A)
      (k : A -> Parser B) :
  on_empty false p -> on_empty m (bind p k).
Proof.
  unfold on_empty, bind. destruct (p []) as [[a|e] rest]; [|auto].
  intros (H & _). discriminate.
Qed.

Lemma on_empty_ret {A : Type} (a : A) : on_empty true (ret a).
Proof. cbn. auto. Qed.

Lemma on_empty_numeric (fmt : Struct) : on_empty false (read_numeric fmt).
Proof.
  unfold on_empty. rewrite read_numeric_eq.
  destruct (Z.ltb_spec (Z.of_nat (@length byte [])) (size fmt)) as [_|L];
    [reflexivity|].
  pose proof (size_pos fmt). cbn in L. lia.
Qed.

Lemma on_empty_string : on_empty false read_string.
Proof. reflexivity. Qed.

Lemma cut_numeric (fmt : Struct) : cut false any (read_numeric fmt).
Proof.
  intros s v r H c t -> Nt.
  pose proof (read_numeric_length _ _ _ _ H) as L.
  rewrite read_numeric_eq in H.
  rewrite length_app in L.
  rewrite (read_numeric_eq fmt c).
  destruct (Z.ltb_spec (Z.of_nat (length (c ++ t))) (size fmt));
    [discriminate|].
  destruct (Z.ltb_spec (Z.of_nat (length c)) (size fmt)) as [Lc|Lc].
  - right. cbn. auto.
  - left. injection H as <- <-.
    exists (skipn (Z.to_nat (size fmt)) c). split.
    + rewrite skipn_app.
      replace (Z.to_nat (size fmt) - length c)%nat with 0%nat by lia.
      reflexivity.
    + rewrite firstn_app.
      replace (Z.to_nat (size fmt) - length c)%nat with 0%nat by lia.
      cbn [firstn]. now rewrite app_nil_r.
Qed.

(** Text that decodes to ASCII consists of bytes below 0x80, and every
    prefix of such text decodes. *)
Lemma decode_ascii_bytes (d : list byte) (a : str) :
  decode d = Ok a -> ascii a ->
  Forall (fun b => (Byte.to_N b < 0x80)%N) d.
Proof.
  remember (length d) as n eqn:L.
  revert d L a. induction n as [n IH] using lt_wf_ind. intros d L a.
  destruct d as [|b0 r0]; [constructor|]. cbn [decode]. subst n.
  unfold ascii.
  repeat match goal with
         | |- Err _ = Ok _ -> _ => discriminate
         | |- (if ?c then _ else _) = _ -> _ => destruct c eqn:?
         | |- match decode ?x with _ => _ end = Ok _ -> _ =>
             let E := fresh "E" in
             let Ha := fresh "Ha" in
             let Hx := fresh "Hx" in
             destruct (decode x) eqn:E; [|discriminate];
             intros [= <-] Ha; inversion Ha as [|? ? Hx Ha']; subst
         | |- match ?r with [] => _ | _ :: _ => _ end = _ -> _ =>
             destruct r
         end.
  all: try match goal with
            | E : decode ?r = Ok ?s, Ha : Forall _ ?s
              |- Forall _ (_ :: ?r) =>
                constructor;
                [ now apply N.ltb_lt
                | exact (IH (length r) ltac:(cbn [length]; lia) r eq_refl
                           s E Ha) ]
            end.
  all: exfalso; unfold in_span, cont in *;
    repeat match goal with
           | H : _ && _ = true |- _ => apply andb_true_iff in H as (? & ?)
           | H : (_ <=? _)%N = true |- _ => apply N.leb_le in H
           | H : (_ <? _)%N = false |- _ => apply N.ltb_ge in H
           | H : context [(?x =? ?y)%N] |- _ => destruct (N.eqb_spec x y)
           end; lia.
Qed.

Lemma decode_low_bytes (d : list byte) :
  Forall (fun b => (Byte.to_N b < 0x80)%N) d ->
  decode d = Ok (map Byte.to_N d).
Proof.
  induction 1 as [|b d Hb _ IH]; [reflexivity|].
  cbn [decode map]. apply N.ltb_lt in Hb. now rewrite Hb, IH.
Qed.

Lemma decode_prefix (c t : list byte) (a : str) (e : error) :
  decode (c ++ t) = Ok a -> decode c = Err e ->
  e = UnicodeDecodeError /\ ~ ascii a.
Proof.
  intros D E. split; [now apply decode_raises in E|].
  intros Ha. apply (decode_ascii_bytes _ _ D) in Ha.
  apply Forall_app in Ha as (Hc & _).
  rewrite (decode_low_bytes _ Hc) in E. discriminate.
Qed.

Lemma cut_string : cut true ascii read_string.
Proof.
  intros s a r H c t -> Nt.
  unfold read_string in H. apply bind_ok in H as (len & s1 & R & H).
  destruct (cut_numeric INT _ _ _ R c t eq_refl Nt) as [(c1 & -> & R')|Bad].
  - apply bind_ok in H as (data & s2 & D & H).
    unfold lift in H. injection H as H <-.
    unfold read_string, bind. rewrite R'. unfold lift.
    unfold read in D |- *.
    destruct (len <? -1); [discriminate|].
    destruct (len =? -1).
    + injection D as <- <-. right.
      destruct (decode c1) as [a'|e] eqn:E; cbn; [auto|].
      right. eapply decode_prefix; eauto.
    + injection D as <- <-.
      destruct (Nat.le_gt_cases (Z.to_nat len) (length c1)) as [G|G].
      * left. exists (skipn (Z.to_nat len) c1).
        rewrite skipn_app, firstn_app in *.
        replace (Z.to_nat len - length c1)%nat with 0%nat in * by lia.
        cbn [firstn skipn] in *. rewrite app_nil_r in H. rewrite H. auto.
      * right. rewrite firstn_all2, skipn_all2 by lia.
        destruct (decode c1) as [a'|e] eqn:E; cbn; [auto|].
        right. rewrite firstn_app in H.
        eapply decode_prefix; [|exact E].
        rewrite <- (firstn_all2 (n := Z.to_nat len) c1) at 1 by lia.
        exact H.
  - right. unfold read_string, bind.
    destruct (read_numeric INT c) as [[v|e] rest];
      [destruct Bad; discriminate|].
    destruct Bad as [->|(_ & N)]; [now left|].
    exfalso. apply N. exact I.
Qed.

Lemma cut_strict {A : Type} (p : Parser A) (s r c t : buffer) (a : A) :
  cut false any p -> p s = (Ok a, r) -> s = c ++ t -> t <> [] ->
  (exists r', r = r' ++ t /\ p c = (Ok a, r'))
  \/ (exists b, p c = (Err StructError, b)).
Proof.
  intros Hp P E Nt. destruct (Hp s a r P c t E Nt) as [H|H]; [now left|].
  right. destruct (p c) as [[a'|e] b]; cbn in H.
  - destruct H; discriminate.
  - destruct H as [->|(_ & N)]; [eauto|]. exfalso. apply N. exact I.
Qed.

Ltac peel H :=
  repeat (apply bind_ok in H; destruct H as (? & ? & _ & H));
  unfold ret in H; injection H as H _; subst.

Ltac link :=
  let H := fresh "H" in
  let C := fresh "C" in
  intros ? ? ? ? H C;
  first
    [ exact I
    | peel H;
      unfold text_ascii, header_ascii, layer_ascii, instrument_ascii in C;
      cbn in C; tauto
    | peel H; inversion C; subst;
      unfold layer_ascii, instrument_ascii in *; cbn in *; tauto ].

Ltac on_empty_next :=
  first [ apply on_empty_ret
        | apply on_empty_bind; first [ apply on_empty_numeric
                                     | apply on_empty_string ] ].

Ltac cut_after_numeric :=
  eapply (cut_bind false _ any);
  [ apply cut_numeric | intros ? | discriminate | link ].

Ltac cut_after_string :=
  eapply (cut_bind true _ ascii);
  [ apply cut_string | intros ? | intros _ ?; on_empty_next | link ].

Lemma cut_jump_next (value : Z) : cut false any (jump_next value).
Proof.
  unfold jump_next. cut_after_numeric.
  match goal with |- context [?a =? 0] => destruct (a =? 0) end;
    apply cut_ret.
Qed.

Lemma cut_read_note (t l : Z) : cut false any (read_note t l).
Proof.
  unfold read_note. cut_after_numeric. cut_after_numeric. apply cut_ret.
Qed.

Lemma cut_header_fields : cut true header_ascii header_fields.
Proof.
  unfold header_fields.
  do 4 cut_after_numeric. do 4 cut_after_string.
  do 9 cut_after_numeric. cut_after_string. apply cut_ret.
Qed.

Lemma cut_parse_header : cut true header_ascii parse_header.
Proof.
  unfold parse_header.
  eapply (cut_bind false _ any);
    [ apply cut_numeric | intros marker | discriminate | link ].
  destruct (negb (marker =? 0)); [apply cut_raise|apply cut_header_fields].
Qed.

Lemma cut_parse_layers (count : nat) (i : Z) :
  cut false (Forall layer_ascii) (parse_layers_from i count).
Proof.
  revert i. induction count as [|count IH]; intros i;
    cbn [parse_layers_from]; [apply cut_ret|].
  cut_after_string. do 2 cut_after_numeric.
  eapply (cut_bind false _ (Forall layer_ascii));
    [ apply IH | intros ?; apply cut_ret | discriminate | link ].
Qed.

Lemma cut_parse_instruments_from (count : nat) (i : Z) :
  cut false (Forall instrument_ascii) (parse_instruments_from i count).
Proof.
  revert i. induction count as [|count IH]; intros i;
    cbn [parse_instruments_from]; [apply cut_ret|].
  do 2 cut_after_string. do 2 cut_after_numeric.
  eapply (cut_bind false _ (Forall instrument_ascii));
    [ apply IH | intros ?; apply cut_ret | discriminate | link ].
Qed.

Lemma cut_parse_instruments :
  cut false (Forall instrument_ascii) parse_instruments.
Proof.
  unfold parse_instruments.
  eapply (cut_bind false _ any);
    [ apply cut_numeric | intros ? | discriminate | link ].
  apply cut_parse_instruments_from.
Qed.

Lemma parse_chord_cut (fuel : nat) (current_tick value : Z) (s r : buffer)
      (ys : list Note) :
  parse_chord fuel current_tick value s = Some (ys, Ok tt, r) ->
  forall c t, s = c ++ t -> t <> [] ->
    (exists r', r = r' ++ t
                /\ parse_chord fuel current_tick value c
                   = Some (ys, Ok tt, r'))
    \/ (exists ys' b,
           parse_chord fuel current_tick value c
           = Some (ys', Err StructError, b)).
Proof.
  revert value s r ys.
  induction fuel as [|fuel IH]; intros value s r ys H c t Es Nt;
    [discriminate|].
  cbn [parse_chord] in *.
  destruct (jump_next value s) as [[[l|]|e] r1] eqn:J; [| |discriminate].
  - destruct (read_note current_tick l r1) as [[n|e] r2] eqn:R;
      [|discriminate].
    destruct (parse_chord fuel current_tick l r2) as [[[ys2 e2] b2]|] eqn:C;
      [|discriminate].
    injection H as <- -> <-.
    destruct (cut_strict _ _ _ _ _ _ (cut_jump_next value) J Es Nt)
      as [(r1' & -> & ->)|(b & ->)]; [|eauto].
    destruct (cut_strict _ _ _ _ _ _ (cut_read_note current_tick l) R
                eq_refl Nt) as [(r2' & -> & ->)|(b & ->)]; [|eauto].
    destruct (IH _ _ _ _ C r2' t eq_refl Nt)
      as [(r' & -> & ->)|(ys' & b & ->)]; cbn; eauto.
  - injection H as <- <-.
    destruct (cut_strict _ _ _ _ _ _ (cut_jump_next value) J Es Nt)
      as [(r1' & -> & ->)|(b & ->)]; eauto.
Qed.

Lemma parse_ticks_cut (fuel : nat) (value : Z) (s r : buffer)
      (ys : list Note) :
  parse_ticks fuel value s = Some (ys, Ok tt, r) ->
  forall c t, s = c ++ t -> t <> [] ->
    (exists r', r = r' ++ t
                /\ parse_ticks fuel value c = Some (ys, Ok tt, r'))
    \/ (exists ys' b,
           parse_ticks fuel value c = Some (ys', Err StructError, b)).
Proof.
  revert value s r ys.
  induction fuel as [|fuel IH]; intros value s r ys H c t Es Nt;
    [discriminate|].
  cbn [parse_ticks] in *.
  destruct (jump_next value s) as [[[tk|]|e] r1] eqn:J; [| |discriminate].
  - destruct (parse_chord fuel tk (-1) r1) as [[[ys1 [[]|e1]] r2]|] eqn:C;
      [|discriminate|discriminate].
    destruct (parse_ticks fuel tk r2) as [[[ys2 e2] b2]|] eqn:T;
      [|discriminate].
    injection H as <- -> <-.
    destruct (cut_strict _ _ _ _ _ _ (cut_jump_next value) J Es Nt)
      as [(r1' & -> & ->)|(b & ->)]; [|eauto].
    destruct (parse_chord_cut _ _ _ _ _ _ C r1' t eq_refl Nt)
      as [(r2' & -> & ->)|(ys' & b & ->)]; [|eauto].
    destruct (IH _ _ _ _ T r2' t eq_refl Nt)
      as [(r' & -> & ->)|(ys' & b & ->)]; cbn; eauto.
  - injection H as <- <-.
    destruct (cut_strict _ _ _ _ _ _ (cut_jump_next value) J Es Nt)
      as [(r1' & -> & ->)|(b & ->)]; eauto.
Qed.

Lemma cut_parse_notes : cut false any (list_of parse_notes).
Proof.
  intros s ys r H c t Es Nt. unfold list_of in H |- *.
  pose proof (parse_notes_some s) as P.
  destruct (parse_notes s) as [[ys0 [[]|e]] r0]; [|discriminate].
  injection H as -> ->.
  destruct (parse_ticks_cut _ _ _ _ _ P c t Es Nt)
    as [(r' & -> & Q)|(ys' & b & Q)];
    rewrite (parse_notes_is _ _ _ Q).
  - left. eauto.
  - right. cbn. auto.
Qed.

Lemma cut_read_sections (h : Header) : cut false text_ascii (read_sections h).
Proof.
  unfold read_sections.
  eapply (cut_bind false _ any);
    [ apply cut_parse_notes | intros ? | discriminate | link ].
  eapply (cut_bind false _ (Forall layer_ascii));
    [ apply cut_parse_layers | intros ? | discriminate | link ].
  eapply (cut_bind false _ (Forall instrument_ascii));
    [ apply cut_parse_instruments | intros ?; apply cut_ret
    | discriminate | link ].
Qed.

Lemma cut_read_file : cut false text_ascii read_file.
Proof.
  unfold read_file.
  eapply (cut_bind true _ header_ascii);
    [ apply cut_parse_header | apply cut_read_sections | intros _ h | link ].
  unfold read_sections. apply on_empty_bind. reflexivity.
Qed.

(** C7, as amended.  When a stream decodes to a document and is read to its
    end, decoding any strictly shorter prefix of it returns no document: it
    raises [struct.error] on a fixed-width read that finds the stream
    exhausted -- or [UnicodeDecodeError], which can only happen when the
    document holds text that is not ASCII, a string cut inside a character
    being read short and decoded before any fixed-width read notices the
    end. *)
Theorem truncated_stream_rejected (s : buffer) (f : File) :
  read_file s = (Ok f, []) ->
  forall p t, s = p ++ t -> t <> [] ->
  exists e rest,
    read_file p = (Err e, rest)
    /\ (e = StructError \/ (e = UnicodeDecodeError /\ ~ text_ascii f)).
Proof.
  intros H p t Es Nt.
  destruct (cut_read_file s f [] H p t Es Nt) as [(r' & E & _)|Bad].
  - destruct r'; [|discriminate]. cbn in E. congruence.
  - destruct (read_file p) as [[f'|e] rest]; cbn in Bad.
    + destruct Bad; discriminate.
    + eauto.
Qed.

Lemma truncated_stream_rejected_witness :
  exists e rest,
    read_file (firstn 20 (snd (save song))) = (Err e, rest)
    /\ (e = StructError
        \/ (e = UnicodeDecodeError /\ ~ text_ascii (update_header song))).
Proof.
  apply (truncated_stream_rejected (snd (save song)) (update_header song))
    with (t := skipn 20 (snd (save song))).
  - vm_compute. reflexivity.
  - symmetry. apply firstn_skipn.
  - vm_compute. discriminate.
Defined.

(** C7 as stated fails: a stream that decodes to a song named U+00E9, cut
    after the first byte of that character, fails to decode with
    [UnicodeDecodeError], not with [struct.error]. *)
Lemma truncated_stream_counterexample :
  (exists f, read_file accented_stream = (Ok f, []))
  /\ (exists t, t <> [] /\ accented_stream = accented_cut ++ t)
  /\ fst (read_file accented_cut) = Err UnicodeDecodeError
  /\ fst (read_file accented_cut) <> Err StructError.
Proof.
  split; [eexists; vm_compute; reflexivity|].
  split; [exists (skipn 13 accented_stream); split;
          [vm_compute; discriminate|reflexivity]|].
  split; [reflexivity|vm_compute; discriminate].
Qed.

(** ** The jump sequence, from the stream to its end *)

(** Any two bytes are the bytes of the signed 16-bit value they hold. *)
Lemma two_bytes_packed (b0 b1 : byte) :
  let jump := to_signed SHORT (le_value [b0; b1]) in
  [b0; b1] = packed SHORT jump
  /\ min_value SHORT <= jump <= max_value SHORT.
Proof.
  cbn zeta.
  assert (unpack SHORT [b0; b1]
          = Ok (to_signed SHORT (le_value [b0; b1]))) as U by reflexivity.
  split; [|exact (unpack_range _ _ _ U)].
  exact (pack_is_packed _ _ _ (pack_unpack _ _ _ U)).
Qed.

Lemma length_jumps_bytes (jumps : list Z) :
  length (jumps_bytes jumps) = (2 * length jumps)%nat.
Proof.
  unfold jumps_bytes. induction jumps as [|j js IH]; [reflexivity|].
  cbn [map concat length]. rewrite length_app, length_packed, IH.
  change (Z.to_nat (size SHORT)) with 2%nat. lia.
Qed.

(** A run of jumps closed by 0: the generator yields the running sums and
    ends, leaving what follows the 0. *)
Lemma jump_from_zero (jumps : list Z) (value : Z) (rest : buffer) :
  Forall jump_value jumps ->
  jump_from (S (length jumps)) value
            (jumps_bytes jumps ++ packed SHORT 0 ++ rest)
  = Some (running value jumps, Ok tt, rest).
Proof.
  revert value. induction jumps as [|j js IH]; intros value F.
  - cbn [jumps_bytes map concat app length jump_from].
    now rewrite (jump_next_packed value 0 rest short_zero).
  - inversion F as [|? ? (Hn & Hr) F']; subst.
    unfold jumps_bytes in *. cbn [map concat length].
    rewrite <- app_assoc.
    set (fuel := S (length js)). cbn [jump_from]. subst fuel.
    rewrite (jump_next_packed value j _ Hr).
    destruct (Z.eqb_spec j 0) as [|_]; [contradiction|].
    rewrite (IH (value + j) F'). reflexivity.
Qed.

(** A run of jumps and then less than two bytes: the generator yields the
    running sums and raises [struct.error], the stream being exhausted. *)
Lemma jump_from_short (jumps : list Z) (value : Z) (tail : buffer) :
  Forall jump_value jumps -> (length tail < 2)%nat ->
  jump_from (S (length jumps)) value (jumps_bytes jumps ++ tail)
  = Some (running value jumps, Err StructError, []).
Proof.
  revert value. induction jumps as [|j js IH]; intros value F L.
  - cbn [jumps_bytes map concat app length jump_from].
    now rewrite (jump_next_short value tail L).
  - inversion F as [|? ? (Hn & Hr) F']; subst.
    unfold jumps_bytes in *. cbn [map concat length].
    rewrite <- app_assoc.
    set (fuel := S (length js)). cbn [jump_from]. subst fuel.
    rewrite (jump_next_packed value j _ Hr).
    destruct (Z.eqb_spec j 0) as [|_]; [contradiction|].
    rewrite (IH (value + j) F' L). reflexivity.
Qed.

(** Every stream is a run of jumps followed by a 0 or by less than two
    bytes, and the run is what [jumps_read] gives. *)
Lemma jumps_read_stream (n : nat) (buf : buffer) :
  (length buf <= n)%nat ->
  Forall jump_value (jumps_read buf)
  /\ ((exists rest,
          buf = jumps_bytes (jumps_read buf) ++ packed SHORT 0 ++ rest)
      \/ (exists tail,
             (length tail < 2)%nat
             /\ buf = jumps_bytes (jumps_read buf) ++ tail)).
Proof.
  revert buf. induction n as [|n IH]; intros buf L.
  - destruct buf; [|cbn in L; lia]. split; [constructor|].
    right. exists []. split; [cbn; lia | reflexivity].
  - destruct buf as [|b0 [|b1 rest]].
    1,2: split; [constructor|]; right; eexists; split;
      [|reflexivity]; cbn; lia.
    destruct (two_bytes_packed b0 b1) as (P & R). cbn zeta in P, R.
    cbn [jumps_read]. cbn zeta.
    destruct (Z.eqb_spec (to_signed SHORT (le_value [b0; b1])) 0) as [E|E].
    + split; [constructor|]. left. exists rest.
      rewrite E in P. cbn [jumps_bytes map concat app].
      change (b0 :: b1 :: rest) with ([b0; b1] ++ rest). now rewrite P.
    + destruct (IH rest) as (F & D); [cbn [length] in L; lia|].
      split; [constructor; [split; assumption | exact F]|].
      unfold jumps_bytes in *. cbn [map concat]. rewrite <- P.
      destruct D as [(r & D)|(t & Lt & D)].
      * left. exists r. rewrite <- app_assoc, <- D. reflexivity.
      * right. exists t. split; [exact Lt|].
        rewrite <- app_assoc, <- D. reflexivity.
Qed.

(** C4, as amended.  [Parser.jump] reads signed 16-bit jumps and yields
    their running sums from -1.  It ends in one of two ways, and the stream
    decides which: on reading 0 it returns, leaving the bytes after the 0
    unread; when less than two bytes are left before any 0 it raises
    [struct.error], the stream being exhausted.  Every stream is of one of
    these two forms.  The yielded sequence is strictly increasing and
    non-negative when every jump read is positive; nothing in the decoder
    rules out a negative jump. *)
Theorem jump_sequence (buf : buffer) :
  (forall jumps rest,
      Forall jump_value jumps ->
      buf = jumps_bytes jumps ++ packed SHORT 0 ++ rest ->
      jump buf = (running (-1) jumps, Ok tt, rest))
  /\ (forall jumps tail,
        Forall jump_value jumps -> (length tail < 2)%nat ->
        buf = jumps_bytes jumps ++ tail ->
        jump buf = (running (-1) jumps, Err StructError, []))
  /\ Forall jump_value (jumps_read buf)
  /\ ((exists rest,
          buf = jumps_bytes (jumps_read buf) ++ packed SHORT 0 ++ rest)
      \/ (exists tail,
             (length tail < 2)%nat
             /\ buf = jumps_bytes (jumps_read buf) ++ tail))
  /\ yielded (jump buf) = running (-1) (jumps_read buf)
  /\ (Forall (fun jump => 0 < jump) (jumps_read buf) ->
      StronglySorted Z.lt (yielded (jump buf))
      /\ Forall (fun v => 0 <= v) (yielded (jump buf))).
Proof.
  assert (forall jumps rest,
             Forall jump_value jumps ->
             buf = jumps_bytes jumps ++ packed SHORT 0 ++ rest ->
             jump buf = (running (-1) jumps, Ok tt, rest)) as Z0.
  { intros js rest F E.
    pose proof (jump_from_zero js (-1) rest F) as J. rewrite <- E in J.
    apply (jump_from_more _ (S (length buf))) in J.
    - rewrite jump_some in J. now injection J.
    - rewrite E, length_app, length_jumps_bytes. lia. }
  assert (forall jumps tail,
             Forall jump_value jumps -> (length tail < 2)%nat ->
             buf = jumps_bytes jumps ++ tail ->
             jump buf = (running (-1) jumps, Err StructError, [])) as Z1.
  { intros js tail F L E.
    pose proof (jump_from_short js (-1) tail F L) as J. rewrite <- E in J.
    apply (jump_from_more _ (S (length buf))) in J.
    - rewrite jump_some in J. now injection J.
    - rewrite E, length_app, length_jumps_bytes. lia. }
  destruct (jumps_read_stream (length buf) buf (Nat.le_refl _)) as (F & D).
  assert (yielded (jump buf) = running (-1) (jumps_read buf)) as Y.
  { destruct D as [(r & D)|(t & Lt & D)].
    - now rewrite (Z0 _ _ F D).
    - now rewrite (Z1 _ _ F Lt D). }
  repeat (split; [assumption|]).
  intros P. rewrite Y. split.
  - now apply running_increasing.
  - destruct (running_increasing (-1) _ P) as (_ & H).
    eapply Forall_impl; [|exact H]. cbn. intros; lia.
Qed.

Lemma jump_sequence_witness :
  (Forall jump_value [1; 5]
   /\ two_jumps = jumps_bytes [1; 5] ++ packed SHORT 0 ++ [x07]
   /\ jump two_jumps = ([0; 5], Ok tt, [x07]))
  /\ (Forall jump_value [1; 5] /\ (length [x07] < 2)%nat
      /\ cut_jumps = jumps_bytes [1; 5] ++ [x07]
      /\ jump cut_jumps = ([0; 5], Err StructError, []))
  /\ (Forall (fun jump => 0 < jump) (jumps_read two_jumps)
      /\ StronglySorted Z.lt (yielded (jump two_jumps))
      /\ Forall (fun v => 0 <= v) (yielded (jump two_jumps))).
Proof.
  assert (Forall jump_value [1; 5]) as F
      by (repeat constructor; discriminate).
  assert ((length [x07] < 2)%nat) as L by (cbn; lia).
  assert (Forall (fun jump => 0 < jump) (jumps_read two_jumps)) as P
      by (cbv; repeat constructor).
  split; [|split].
  - split; [exact F|]. split; [reflexivity|].
    exact (proj1 (jump_sequence two_jumps) [1; 5] [x07] F eq_refl).
  - split; [exact F|]. split; [exact L|]. split; [reflexivity|].
    exact (proj1 (proj2 (jump_sequence cut_jumps)) [1; 5] [x07] F L eq_refl).
  - split; [exact P|].
    exact (proj2 (proj2 (proj2 (proj2 (proj2 (jump_sequence two_jumps))))) P).
Defined.

(** C4 as stated fails: the 16-bit value is signed, and after the jump -1
    the generator yields -2. *)
Lemma jump_sequence_counterexample :
  ~ Forall (fun v => 0 <= v) (yielded (jump [xff; xff; x00; x00])).
Proof.
  assert (yielded (jump [xff; xff; x00; x00]) = [-2]) as E by reflexivity.
  rewrite E. intros H. inversion H; subst. lia.
Qed.

(* ================================================================== *)
(** * Further properties of the codec *)

(** ** Fixed-width integers *)

(** X1.  [encode_numeric] writes a value in the range of its format as
    [size] bytes that [read_numeric] reads back as the same value, leaving
    what follows; out of the range it raises [struct.error] and writes
    nothing. *)
Theorem numeric_written_and_read (fmt : Struct) (v : Z) (rest : buffer) :
  (min_value fmt <= v <= max_value fmt ->
   exists bs, encode_numeric fmt v = (Ok tt, bs)
              /\ Z.of_nat (length bs) = size fmt
              /\ read_numeric fmt (bs ++ rest) = (Ok v, rest))
  /\ (v < min_value fmt \/ max_value fmt < v ->
      encode_numeric fmt v = (Err StructError, [])).
Proof.
  split.
  - intros R. exists (packed fmt v). split; [now apply encode_numeric_ok|].
    split; [rewrite length_packed; apply length_size|].
    now apply reads_numeric.
  - intros R. rewrite encode_numeric_eq, pack_out_of_range; [reflexivity|].
    tauto.
Qed.

Lemma numeric_written_and_read_witness :
  (exists bs, encode_numeric SHORT (-2) = (Ok tt, bs)
              /\ Z.of_nat (length bs) = size SHORT
              /\ read_numeric SHORT (bs ++ [x07]) = (Ok (-2), [x07]))
  /\ encode_numeric BYTE 128 = (Err StructError, []).
Proof.
  split.
  - apply (proj1 (numeric_written_and_read SHORT (-2) [x07])).
    split; discriminate.
  - apply (proj2 (numeric_written_and_read BYTE 128 [])).
    right. reflexivity.
Defined.

(** X2.  Whatever [read_numeric] returns lies in the range of the format,
    and [encode_numeric] writes it back as exactly the bytes that were
    consumed. *)
Theorem numeric_read_and_written (fmt : Struct) (buf rest : buffer) (v : Z) :
  read_numeric fmt buf = (Ok v, rest) ->
  min_value fmt <= v <= max_value fmt
  /\ exists bs, buf = bs ++ rest /\ encode_numeric fmt v = (Ok tt, bs).
Proof.
  intros H. split; [eapply read_numeric_range; eauto|].
  apply read_numeric_ok in H as (bs & E & P). exists bs. split; [exact E|].
  now rewrite encode_numeric_eq, P.
Qed.

Lemma numeric_read_and_written_witness :
  min_value INT <= -1 <= max_value INT
  /\ exists bs, [xff; xff; xff; xff; x01] = bs ++ [x01]
                /\ encode_numeric INT (-1) = (Ok tt, bs).
Proof.
  apply (numeric_read_and_written INT [xff; xff; xff; xff; x01] [x01] (-1)).
  reflexivity.
Defined.

(** X3.  [read_numeric] fails exactly when fewer than [size] bytes are
    left: it then raises [struct.error] with the stream exhausted, the
    bytes that were left being consumed; otherwise it consumes [size]
    bytes. *)
Theorem numeric_read_at_end (fmt : Struct) (buf : buffer) :
  (Z.of_nat (length buf) < size fmt ->
   read_numeric fmt buf = (Err StructError, []))
  /\ (size fmt <= Z.of_nat (length buf) ->
      exists v, read_numeric fmt buf
                = (Ok v, skipn (Z.to_nat (size fmt)) buf)).
Proof.
  rewrite read_numeric_eq.
  destruct (Z.ltb_spec (Z.of_nat (length buf)) (size fmt)); split;
    intros; try lia; eauto.
Qed.

Lemma numeric_read_at_end_witness :
  read_numeric INT [x01; x02; x03] = (Err StructError, [])
  /\ exists v, read_numeric SHORT [x01; x02; x03] = (Ok v, [x03]).
Proof.
  split.
  - apply (proj1 (numeric_read_at_end INT [x01; x02; x03])). reflexivity.
  - apply (proj2 (numeric_read_at_end SHORT [x01; x02; x03])). discriminate.
Defined.

(** ** Strings *)

Lemma encode_char_length (c : N) (bs : list byte) :
  utf8_encode_char c = Ok bs ->
  ((c < 0x80)%N /\ length bs = 1%nat) \/ ((0x80 <= c)%N /\ (2 <= length bs)%nat).
Proof.
  unfold utf8_encode_char.
  destruct (N.ltb_spec c 0x80); [intros [= <-]; left; auto|].
  destruct (N.ltb_spec c 0x800); [intros [= <-]; right; cbn; split; [assumption|lia]|].
  destruct (N.ltb_spec c 0x10000).
  - destruct ((0xD800 <=? c)%N && (c <=? 0xDFFF)%N); [discriminate|].
    intros [= <-]. right. cbn. split; [assumption|lia].
  - destruct (N.ltb_spec c 0x110000); [|discriminate].
    intros [= <-]. right. cbn. split; [assumption|lia].
Qed.

Lemma encode_length (s : str) (bs : list byte) :
  encode s = Ok bs ->
  (length s <= length bs)%nat /\ (length bs = length s <-> ascii s).
Proof.
  revert bs. induction s as [|c s IH]; intros bs.
  - intros [= <-]. split; [reflexivity|]. split; [constructor|reflexivity].
  - cbn [encode].
    destruct (utf8_encode_char c) as [b|e] eqn:C; [|discriminate].
    destruct (encode s) as [bs'|e] eqn:E; [|discriminate].
    intros [= <-]. destruct (IH _ eq_refl) as (L & I).
    rewrite length_app. cbn [length].
    apply encode_char_length in C as [(Hc & Lb)|(Hc & Lb)].
    + split; [lia|]. split.
      * intros H. constructor; [exact Hc|]. apply I. lia.
      * intros H. inversion H; subst.
        assert (length bs' = length s) by now apply I. lia.
    + split; [lia|]. split; [lia|].
      intros H. inversion H; subst. lia.
Qed.

(** X4.  What [encode_string] writes is the number of characters, as a
    32-bit prefix, and then the UTF-8 bytes of the string, which are at
    least as many; [read_string] reads the string back from it, up to what
    follows, if and only if the string is ASCII. *)
Theorem string_read_back_iff_ascii (s : str) (out rest : list byte) :
  encode_string s = (Ok tt, out) ->
  exists bs,
    encode s = Ok bs
    /\ out = packed INT (Z.of_nat (length s)) ++ bs
    /\ (length s <= length bs)%nat
    /\ (read_string (out ++ rest) = (Ok s, rest) <-> ascii s).
Proof.
  unfold encode_string. intros H.
  apply wbind_ok in H as ([] & o1 & o2 & H1 & H2 & ->).
  apply encode_numeric_inv in H1.
  pose proof (pack_is_packed _ _ _ H1) as ->.
  unfold wbind, eval, write in H2.
  destruct (encode s) as [bs|e] eqn:E; [|discriminate].
  injection H2 as <-. cbn [app].
  exists bs. destruct (encode_length _ _ E) as (L & I).
  repeat split; try assumption.
  - intros R.
    assert (snd (read_string ((packed INT (Z.of_nat (length s)) ++ bs)
                                ++ rest))
            = skipn (length s) (bs ++ rest)) as B.
    { unfold read_string, bind. rewrite <- app_assoc.
      rewrite (read_numeric_app INT _ _ _ H1). unfold read, lift.
      destruct (Z.ltb_spec (Z.of_nat (length s)) (-1)); [lia|].
      destruct (Z.eqb_spec (Z.of_nat (length s)) (-1)); [lia|].
      now rewrite Nat2Z.id. }
    rewrite R in B. cbn [snd] in B.
    apply (f_equal (@length byte)) in B.
    rewrite length_skipn, length_app in B. apply I. lia.
  - intros A.
    assert (plain s) as P.
    { split; [exact A|]. apply unpack_pack, unpack_range in H1. lia. }
    destruct (string_written s P) as (W & R).
    rewrite (encode_ascii s A) in E. injection E as <-.
    apply R.
Qed.

Lemma string_read_back_iff_ascii_witness :
  exists bs,
    encode [0x4F; 0x6B]%N = Ok bs
    /\ [x02; x00; x00; x00; x4f; x6b]
       = packed INT (Z.of_nat (length [0x4F; 0x6B]%N)) ++ bs
    /\ (length [0x4F; 0x6B]%N <= length bs)%nat
    /\ (read_string ([x02; x00; x00; x00; x4f; x6b] ++ [xff])
        = (Ok [0x4F; 0x6B]%N, [xff]) <-> ascii [0x4F; 0x6B]%N).
Proof.
  apply (string_read_back_iff_ascii [0x4F; 0x6B]%N
           [x02; x00; x00; x00; x4f; x6b] [xff]).
  reflexivity.
Defined.

(** ** [update_header] *)

(** X5.  [update_header] changes nothing but the two counters of the
    header, and running it twice is running it once. *)
Theorem update_header_idempotent (f : File) :
  update_header (update_header f) = update_header f
  /\ notes (update_header f) = notes f
  /\ layers (update_header f) = layers f
  /\ instruments (update_header f) = instruments f
  /\ set_song_layers
       (set_song_length (header f) (song_length (header (update_header f))))
       (song_layers (header (update_header f)))
     = header (update_header f).
Proof.
  destruct f as [h ns ls ins]. unfold update_header. cbn.
  destruct ns as [|n ns]; cbn; repeat split; destruct h; reflexivity.
Qed.

(** ** [File.__iter__] on any list of notes *)

Lemma insert_by_perm {A : Type} (key : A -> Z) (x : A) (l : list A) :
  Permutation (insert_by key x l) (x :: l).
Proof.
  induction l as [|y l IH]; cbn [insert_by]; [reflexivity|].
  destruct (key x <=? key y); [reflexivity|].
  rewrite IH. apply perm_swap.
Qed.

Lemma sorted_perm {A : Type} (key : A -> Z) (l : list A) :
  Permutation (sorted key l) l.
Proof.
  unfold sorted. induction l as [|x l IH]; cbn [fold_right]; [reflexivity|].
  rewrite insert_by_perm. now constructor.
Qed.

Lemma insert_by_sorted {A : Type} (key : A -> Z) (x : A) (l : list A) :
  StronglySorted (fun a b => key a <= key b) l ->
  StronglySorted (fun a b => key a <= key b) (insert_by key x l).
Proof.
  induction 1 as [|y l S IH F]; cbn [insert_by]; [repeat constructor|].
  destruct (Z.leb_spec (key x) (key y)).
  - constructor; [now constructor|].
    constructor; [assumption|].
    eapply Forall_impl; [|exact F]. cbn. intros; lia.
  - constructor; [exact IH|].
    eapply Permutation_Forall; [symmetry; apply insert_by_perm|].
    constructor; [lia|exact F].
Qed.

Lemma sorted_sorted {A : Type} (key : A -> Z) (l : list A) :
  StronglySorted (fun a b => key a <= key b) (sorted key l).
Proof.
  unfold sorted. induction l as [|x l IH]; cbn [fold_right]; [constructor|].
  now apply insert_by_sorted.
Qed.

Lemma iter_loop_perm (ns : list Note) (ct : Z) (chord : list Note) :
  Permutation (concat (map snd (iter_loop ns ct chord))) (chord ++ ns).
Proof.
  revert ct chord. induction ns as [|n ns IH]; intros ct chord;
    cbn [iter_loop].
  - cbn. now rewrite !app_nil_r.
  - destruct (tick n =? ct).
    + rewrite IH, <- app_assoc. reflexivity.
    + cbn [map snd concat]. rewrite IH, sorted_perm. reflexivity.
Qed.

(** X6.  Iterating a file yields every note exactly once: the chords,
    one after the other, are a rearrangement of the notes. *)
Theorem iter_yields_every_note_once (f : File) :
  Permutation (concat (map snd (File_iter f))) (notes f).
Proof.
  unfold File_iter. destruct (notes f) as [|n ns] eqn:E; [reflexivity|].
  rewrite iter_loop_perm. cbn [app]. apply sorted_perm.
Qed.

Lemma iter_loop_nonempty (ns : list Note) (ct : Z) (chord : list Note) :
  iter_loop ns ct chord <> [].
Proof.
  revert ct chord. induction ns as [|n ns IH]; intros ct chord;
    cbn [iter_loop]; [discriminate|].
  destruct (tick n =? ct); [apply IH|discriminate].
Qed.

Lemma iter_loop_ticks (ns : list Note) (ct : Z) (chord : list Note) :
  Forall (fun n => tick n = ct) chord ->
  Forall (fun pair => Forall (fun n => tick n = fst pair) (snd pair))
         (iter_loop ns ct chord).
Proof.
  revert ct chord. induction ns as [|n ns IH]; intros ct chord F;
    cbn [iter_loop].
  - repeat constructor. exact F.
  - destruct (Z.eqb_spec (tick n) ct) as [E|E].
    + apply IH. apply Forall_app. split; [exact F|]. now repeat constructor.
    + constructor.
      * cbn. eapply Permutation_Forall; [symmetry; apply sorted_perm|].
        exact F.
      * apply IH. now repeat constructor.
Qed.

Lemma iter_loop_layers (ns : list Note) (ct : Z) (chord : list Note) :
  Forall (fun pair => layer_ordered (snd pair))
         (removelast (iter_loop ns ct chord)).
Proof.
  revert ct chord. induction ns as [|n ns IH]; intros ct chord;
    cbn [iter_loop]; [constructor|].
  destruct (tick n =? ct); [apply IH|].
  pose proof (iter_loop_nonempty ns (tick n) [n]) as N.
  cbn [removelast]. destruct (iter_loop ns (tick n) [n]) eqn:E;
    [contradiction|].
  rewrite <- E. constructor; [apply sorted_sorted|apply IH].
Qed.

Lemma iter_loop_ascending (ns : list Note) (ct : Z) (chord : list Note) :
  tick_ordered ns -> Forall (fun n => ct <= tick n) ns ->
  StronglySorted Z.lt (map fst (iter_loop ns ct chord))
  /\ Forall (fun t => ct <= t) (map fst (iter_loop ns ct chord)).
Proof.
  unfold tick_ordered. revert ct chord.
  induction ns as [|n ns IH]; intros ct chord S F; cbn [iter_loop].
  - cbn. split; repeat constructor. lia.
  - inversion S as [|? ? S' Fn]; subst. inversion F as [|? ? Hn F']; subst.
    destruct (Z.eqb_spec (tick n) ct) as [E|E].
    + now apply IH.
    + destruct (IH (tick n) [n] S' Fn) as (A & B). cbn [map fst]. split.
      * constructor; [exact A|].
        eapply Forall_impl; [|exact B]. cbn. intros; lia.
      * constructor; [lia|].
        eapply Forall_impl; [|exact B]. cbn. intros; lia.
Qed.

Lemma iter_loop_chords_nonempty (ns : list Note) (ct : Z)
      (chord : list Note) :
  chord <> [] ->
  Forall (fun pair => snd pair <> []) (iter_loop ns ct chord).
Proof.
  revert ct chord. induction ns as [|n ns IH]; intros ct chord N;
    cbn [iter_loop].
  - repeat constructor. exact N.
  - destruct (tick n =? ct).
    + apply IH. destruct chord; discriminate.
    + constructor; [|apply IH; discriminate].
      cbn. intros E. apply N.
      apply Permutation_nil. rewrite <- E. apply sorted_perm.
Qed.

(** X7.  Whatever the order of the notes, every chord that iteration
    yields holds notes of the tick it is yielded with, every chord but the
    last one is in ascending order of layer, and from the second pair on
    the ticks are strictly ascending. *)
Theorem iter_chords (f : File) :
  Forall (fun pair => Forall (fun n => tick n = fst pair) (snd pair))
         (File_iter f)
  /\ Forall (fun pair => layer_ordered (snd pair))
            (removelast (File_iter f))
  /\ StronglySorted Z.lt (map fst (tl (File_iter f))).
Proof.
  unfold File_iter. destruct (notes f) as [|n ns].
  - repeat split; constructor.
  - split; [apply iter_loop_ticks; constructor|].
    split; [apply iter_loop_layers|].
    pose proof (sorted_sorted tick (n :: ns)) as S.
    destruct (sorted tick (n :: ns)) as [|n' r']; [constructor|].
    inversion S as [|? ? S' F]; subst. cbn [iter_loop].
    destruct (Z.eqb_spec (tick n') (tick n)) as [E|E].
    + rewrite <- E.
      destruct (iter_loop_ascending r' (tick n') ([] ++ [n']) S' F)
        as (A & _).
      destruct (iter_loop r' (tick n') ([] ++ [n'])); [constructor|].
      cbn [map tl] in *. now inversion A.
    + cbn [tl]. apply (iter_loop_ascending r' (tick n') [n'] S' F).
Qed.

(** X8.  When the first note of the list has the least tick, iteration
    yields the ticks in strictly ascending order and no empty chord. *)
Theorem iter_from_least_tick (f : File) (first : Note) (rest : list Note) :
  notes f = first :: rest ->
  Forall (fun n => tick first <= tick n) rest ->
  StronglySorted Z.lt (map fst (File_iter f))
  /\ Forall (fun pair => snd pair <> []) (File_iter f).
Proof.
  intros E L. unfold File_iter. rewrite E.
  pose proof (sorted_sorted tick (first :: rest)) as S.
  pose proof (sorted_perm tick (first :: rest)) as P.
  assert (Forall (fun n => tick first <= tick n) (first :: rest)) as L'
      by (constructor; [lia|exact L]).
  apply (Permutation_Forall (Permutation_sym P)) in L'.
  destruct (sorted tick (first :: rest)) as [|n' r'].
  - apply Permutation_nil in P. discriminate.
  - inversion S as [|? ? S' F]; subst.
    inversion L' as [|? ? Hn' Lr]; subst.
    assert (tick n' = tick first) as T.
    { assert (In first (n' :: r')) as I
          by (apply (Permutation_in _ (Permutation_sym P)); now left).
      destruct I as [->|I]; [reflexivity|].
      rewrite Forall_forall in F. specialize (F _ I). cbn in F. lia. }
    cbn [iter_loop]. rewrite T, Z.eqb_refl. split.
    + apply (iter_loop_ascending r' (tick first) _ S' Lr).
    + apply iter_loop_chords_nonempty. discriminate.
Qed.

Lemma iter_from_least_tick_witness :
  StronglySorted Z.lt
    (map fst (File_iter (mkFile default_header
                           [mkNote 2 3 0 0; mkNote 7 1 0 0; mkNote 5 0 0 0]
                           [] [])))
  /\ Forall (fun pair => snd pair <> [])
        (File_iter (mkFile default_header
                      [mkNote 2 3 0 0; mkNote 7 1 0 0; mkNote 5 0 0 0]
                      [] [])).
Proof.
  apply (iter_from_least_tick _ (mkNote 2 3 0 0)
           [mkNote 7 1 0 0; mkNote 5 0 0 0]); [reflexivity|].
  repeat constructor; cbn; lia.
Defined.

(** ** Layers and instruments *)

Lemma parse_layers_from_numbers (count : nat) (i : Z) (buf rest : buffer)
      (ls : list Layer) :
  parse_layers_from i count buf = (Ok ls, rest) ->
  length ls = count /\ map layer_id ls = positions i count
  /\ Forall (fun l => signed_byte (volume l) /\ signed_byte (panning l)) ls.
Proof.
  revert i buf rest ls. induction count as [|count IH]; intros i buf rest ls.
  - intros [= <- <-]. repeat split; constructor.
  - cbn [parse_layers_from]. intros H.
    apply bind_ok in H as (name & b1 & _ & H).
    apply bind_ok in H as (v & b2 & Hv & H).
    apply bind_ok in H as (p & b3 & Hp & H).
    apply bind_ok in H as (tl & b4 & Ht & H).
    injection H as <- <-. apply IH in Ht as (L & M & F).
    apply read_numeric_range in Hv, Hp.
    cbn. rewrite L, M. repeat split; [constructor; [|exact F]].
    cbn. split; assumption.
Qed.

(** X9.  [parse_layers] reads as many layers as the count says, none when
    the count is zero or negative, and numbers them by position from 0;
    their volume and panning lie in -128..127. *)
Theorem parse_layers_numbers (layers_count : Z) (buf : buffer) :
  (layers_count <= 0 -> parse_layers layers_count buf = (Ok [], buf))
  /\ (forall ls rest,
        parse_layers layers_count buf = (Ok ls, rest) ->
        length ls = Z.to_nat layers_count
        /\ map layer_id ls = positions 0 (length ls)
        /\ Forall (fun l => signed_byte (volume l)
                            /\ signed_byte (panning l)) ls).
Proof.
  unfold parse_layers. split.
  - intros L. replace (Z.to_nat layers_count) with O by lia. reflexivity.
  - intros ls rest H.
    apply parse_layers_from_numbers in H as (L & M & F).
    rewrite L. auto.
Qed.

Lemma parse_layers_numbers_witness :
  parse_layers (-3) [x01] = (Ok [], [x01])
  /\ (length [mkLayer 0 [] 100 (-56); mkLayer 1 [0x41%N] 1 2] = Z.to_nat 2
      /\ map layer_id [mkLayer 0 [] 100 (-56); mkLayer 1 [0x41%N] 1 2]
         = positions 0
             (length [mkLayer 0 [] 100 (-56); mkLayer 1 [0x41%N] 1 2])
      /\ Forall (fun l => signed_byte (volume l) /\ signed_byte (panning l))
           [mkLayer 0 [] 100 (-56); mkLayer 1 [0x41%N] 1 2]).
Proof.
  split.
  - apply (proj1 (parse_layers_numbers (-3) [x01])). lia.
  - apply (proj2 (parse_layers_numbers 2
                    [x00; x00; x00; x00; x64; xc8;
                     x01; x00; x00; x00; x41; x01; x02; x09])
             _ [x09]).
    reflexivity.
Defined.

Lemma parse_instruments_from_numbers (count : nat) (i : Z)
      (buf rest : buffer) (ins : list Instrument) :
  parse_instruments_from i count buf = (Ok ins, rest) ->
  length ins = count /\ map instrument_id ins = positions i count
  /\ Forall (fun x => signed_byte (pitch x)) ins.
Proof.
  revert i buf rest ins.
  induction count as [|count IH]; intros i buf rest ins.
  - intros [= <- <-]. repeat split; constructor.
  - cbn [parse_instruments_from]. intros H.
    apply bind_ok in H as (name & b1 & _ & H).
    apply bind_ok in H as (fl & b2 & _ & H).
    apply bind_ok in H as (p & b3 & Hp & H).
    apply bind_ok in H as (k & b4 & _ & H).
    apply bind_ok in H as (tl & b5 & Ht & H).
    injection H as <- <-. apply IH in Ht as (L & M & F).
    apply read_numeric_range in Hp.
    cbn. rewrite L, M. repeat split. constructor; [exact Hp|exact F].
Qed.

(** X10.  [parse_instruments] reads the count as one signed byte: it
    returns at most 127 instruments, numbered by position from 0, with a
    pitch in -128..127, and none at all -- consuming the count alone --
    when the count byte is zero or negative. *)
Theorem parse_instruments_numbers (buf : buffer) :
  (forall ins rest,
      parse_instruments buf = (Ok ins, rest) ->
      (length ins <= 127)%nat
      /\ map instrument_id ins = positions 0 (length ins)
      /\ Forall (fun x => signed_byte (pitch x)) ins)
  /\ (forall count rest,
        read_numeric BYTE buf = (Ok count, rest) -> count <= 0 ->
        parse_instruments buf = (Ok [], rest)).
Proof.
  unfold parse_instruments. split.
  - intros ins rest H. apply bind_ok in H as (count & b1 & Hc & H).
    apply parse_instruments_from_numbers in H as (L & M & F).
    apply read_numeric_range in Hc.
    assert (max_value BYTE = 127) as E by reflexivity.
    rewrite L. repeat split; [lia|exact M|exact F].
  - intros count rest R L. unfold bind. rewrite R.
    replace (Z.to_nat count) with O by lia. reflexivity.
Qed.

Lemma parse_instruments_numbers_witness :
  ((length [mkInstrument 0 [] [0x41%N] 45 true] <= 127)%nat
   /\ map instrument_id [mkInstrument 0 [] [0x41%N] 45 true]
      = positions 0 (length [mkInstrument 0 [] [0x41%N] 45 true])
   /\ Forall (fun x => signed_byte (pitch x))
        [mkInstrument 0 [] [0x41%N] 45 true])
  /\ parse_instruments [xff; x01; x02] = (Ok [], [x01; x02]).
Proof.
  split.
  - apply (proj1 (parse_instruments_numbers
                    [x01; x00; x00; x00; x00; x01; x00; x00; x00; x41;
                     x2d; x01])
             _ []).
    reflexivity.
  - apply (proj2 (parse_instruments_numbers [xff; x01; x02])
             (-1) [x01; x02]); [reflexivity|lia].
Defined.

Lemma write_layer_list_renumbered (ls : list Layer) (i : Z) :
  write_layer_list (layers_renumbered i ls) = write_layer_list ls.
Proof.
  revert i. induction ls as [|l ls IH]; intros i; [reflexivity|].
  cbn [layers_renumbered write_layer_list]. cbn [layer_name volume panning].
  now rewrite IH.
Qed.

Lemma layers_renumbered_fit (ls : list Layer) (i : Z) :
  Forall layer_fits ls ->
  Forall layer_fits (layers_renumbered i ls)
  /\ layers_numbered i (layers_renumbered i ls)
  /\ length (layers_renumbered i ls) = length ls.
Proof.
  intros F. revert i. induction F as [|l ls Hl _ IH]; intros i.
  - repeat split. constructor.
  - destruct (IH (i + 1)) as (A & B & C). cbn. rewrite C.
    repeat split; [constructor; [exact Hl|exact A]|exact B].
Qed.

(** X11.  Layers whose fields fit the format are written by
    [write_layers] and read back by [parse_layers] with the same names,
    volumes and pannings, in the same order, whatever identifiers they
    were held with: the identifiers read back are the positions. *)
Theorem layers_written_and_read (f : File) :
  Forall layer_fits (layers f) ->
  exists bs,
    write_layers f = (Ok tt, bs)
    /\ forall rest,
         parse_layers (Z.of_nat (length (layers f))) (bs ++ rest)
         = (Ok (layers_renumbered 0 (layers f)), rest).
Proof.
  intros F. destruct (layers_renumbered_fit _ 0 F) as (A & B & C).
  destruct (layers_written _ 0 A B) as (bs & W & R).
  exists bs. split.
  - unfold write_layers. now rewrite <- (write_layer_list_renumbered _ 0).
  - intros rest. unfold parse_layers. rewrite Nat2Z.id, <- C. apply R.
Qed.

Lemma layers_written_and_read_witness :
  exists bs,
    write_layers renumbered_file = (Ok tt, bs)
    /\ forall rest,
         parse_layers (Z.of_nat (length (layers renumbered_file)))
                      (bs ++ rest)
         = (Ok (layers_renumbered 0 (layers renumbered_file)), rest).
Proof.
  apply (layers_written_and_read renumbered_file).
  repeat constructor; cbn; lia.
Defined.

Lemma write_instrument_list_renumbered (l : list Instrument) (i : Z) :
  write_instrument_list (instruments_renumbered i l)
  = write_instrument_list l.
Proof.
  revert i. induction l as [|x l IH]; intros i; [reflexivity|].
  cbn [instruments_renumbered write_instrument_list].
  cbn [instrument_name file pitch press_key]. now rewrite IH.
Qed.

Lemma instruments_renumbered_fit (l : list Instrument) (i : Z) :
  Forall instrument_plain l ->
  Forall instrument_plain (instruments_renumbered i l)
  /\ instruments_numbered i (instruments_renumbered i l)
  /\ length (instruments_renumbered i l) = length l.
Proof.
  intros F. revert i. induction F as [|x l Hx _ IH]; intros i.
  - repeat split. constructor.
  - destruct (IH (i + 1)) as (A & B & C). cbn. rewrite C.
    repeat split; [constructor; [exact Hx|exact A]|exact B].
Qed.

(** X12.  At most 127 instruments whose fields fit the format are written
    by [write_instruments], count first, and read back by
    [parse_instruments] with the same names, files, pitches and key flags,
    in the same order, numbered by position. *)
Theorem instruments_written_and_read (f : File) :
  Forall instrument_plain (instruments f) ->
  Z.of_nat (length (instruments f)) <= 127 ->
  exists bs,
    write_instruments f = (Ok tt, bs)
    /\ forall rest,
         parse_instruments (bs ++ rest)
         = (Ok (instruments_renumbered 0 (instruments f)), rest).
Proof.
  intros F L. destruct (instruments_renumbered_fit _ 0 F) as (A & B & C).
  set (g := mkFile (header f) (notes f) (layers f)
                   (instruments_renumbered 0 (instruments f))).
  destruct (instruments_written g A B) as (bs & W & R);
    [cbn; rewrite C; exact L|].
  exists bs. split; [|exact R].
  unfold write_instruments in *. cbn [instruments g] in W.
  now rewrite C, write_instrument_list_renumbered in W.
Qed.

Lemma instruments_written_and_read_witness :
  exists bs,
    write_instruments song = (Ok tt, bs)
    /\ forall rest,
         parse_instruments (bs ++ rest)
         = (Ok (instruments_renumbered 0 (instruments song)), rest).
Proof.
  apply (instruments_written_and_read song).
  - destruct song_storable as (_ & _ & _ & _ & H & _). exact H.
  - cbn. lia.
Defined.

(** ** Whole files *)

Lemma storable_saved (f : File) :
  storable f ->
  exists out,
    save f = (Ok tt, out) /\ read_file out = (Ok (update_header f), []).
Proof.
  intros (Hh & Hn & Hl & Hli & Hi & Hii & Hic).
  set (f' := update_header f) in *.
  destruct (header_written f' Hh) as (bh & Wh & Rh).
  destruct (notes_written f' Hn) as (Wn & Rn).
  destruct (layers_written _ 0 Hl Hli) as (bl & Wl & Rl).
  destruct (instruments_written f' Hi Hii Hic) as (bi & Wi & Ri).
  eexists. split.
  - unfold save, encode_file. fold f'.
    eapply wbind_seq; [exact Wh|].
    eapply wbind_seq; [exact Wn|].
    eapply wbind_seq; [exact Wl|].
    exact Wi.
  - assert (reads read_file f'
              (bh ++ (chords_bytes (-1) (chords_of (notes f'))
                      ++ packed SHORT 0) ++ bl ++ bi)) as R.
    { unfold read_file, read_sections.
      apply reads_bind with (a := header f'); [exact Rh|].
      apply reads_bind with (a := notes f'); [exact Rn|].
      apply reads_bind with (a := layers f').
      - unfold parse_layers. change (song_layers (header f'))
          with (Z.of_nat (length (layers f))).
        rewrite Nat2Z.id. exact Rl.
      - apply reads_bind_ret
          with (g := mkFile (header f') (notes f') (layers f')) in Ri.
        eapply reads_eq; [exact Ri|]. now destruct f'. }
    specialize (R []). now rewrite app_nil_r in R.
Qed.

Lemma storable_ascii (f : File) : storable f -> text_ascii (update_header f).
Proof.
  intros (Hh & _ & Hl & _ & Hi & _).
  destruct Hh as (_ & _ & _ & _ & (A1 & _) & (A2 & _) & (A3 & _) & (A4 & _)
                  & _ & _ & _ & _ & _ & _ & _ & _ & (A5 & _)).
  split; [repeat split; assumption|]. split.
  - eapply Forall_impl; [|exact Hl]. intros l ((A & _) & _). exact A.
  - eapply Forall_impl; [|exact Hi].
    intros x ((A & _) & (B & _) & _). split; assumption.
Qed.

(** X13.  Saving a document that the format can hold and cutting the bytes
    written anywhere short of their end gives a stream that [read_file]
    refuses with [struct.error]: a truncated copy of a saved file is never
    taken for a document. *)
Theorem truncated_save_rejected (f : File) :
  storable f ->
  exists out,
    save f = (Ok tt, out)
    /\ forall p t, out = p ++ t -> t <> [] ->
         exists rest, read_file p = (Err StructError, rest).
Proof.
  intros S. destruct (storable_saved f S) as (out & W & R).
  exists out. split; [exact W|]. intros p t E Nt.
  destruct (cut_read_file out _ [] R p t E Nt) as [(r' & E' & _)|Bad].
  - destruct r'; [|discriminate]. cbn in E'. congruence.
  - destruct (read_file p) as [[f'|e] rest]; cbn in Bad.
    + destruct Bad; discriminate.
    + destruct Bad as [->|(_ & N)]; [eauto|].
      exfalso. apply N. now apply storable_ascii.
Qed.

Lemma truncated_save_rejected_witness :
  exists out,
    save song = (Ok tt, out)
    /\ forall p t, out = p ++ t -> t <> [] ->
         exists rest, read_file p = (Err StructError, rest).
Proof. exact (truncated_save_rejected song song_storable). Defined.

(** X14.  A file that [save] has written is never refused as a file of
    the old format: reading it back does not raise [DeprecationWarning]. *)
Theorem saved_file_not_deprecated (f : File) (out : list byte) :
  save f = (Ok tt, out) ->
  fst (read_file out) <> Err DeprecationWarning.
Proof.
  unfold save, encode_file. intros S.
  apply wbind_ok in S as ([] & o1 & r1 & H & _ & ->).
  apply write_header_prefix in H as (rest & -> & _).
  repeat rewrite <- app_assoc.
  match goal with
  | |- context [read_file (packed SHORT 0 ++ ?tl)] => set (tail := tl)
  end.
  assert (read_file (packed SHORT 0 ++ tail)
          = (header <- header_fields ;; read_sections header)%parser tail)
    as K.
  { unfold read_file, parse_header. unfold bind at 1 2.
    rewrite (reads_numeric SHORT 0 short_zero). reflexivity. }
  rewrite K.
  destruct ((header <- header_fields ;; read_sections header)%parser tail)
    as [[g|e] b'] eqn:E; [discriminate|].
  cbn. intros [= ->].
  eapply (raises_only_bind (fun e => e <> DeprecationWarning));
    [apply header_fields_raises | apply read_sections_raises | exact E
    | reflexivity].
Qed.

Lemma saved_file_not_deprecated_witness :
  fst (read_file (snd (save song))) <> Err DeprecationWarning.
Proof.
  apply (saved_file_not_deprecated song). reflexivity.
Defined.

(** X15.  A new file, whatever header it is given, has no notes, one
    layer and no instruments; when the fields of the header fit the
    format, it is saved and read back as the new file of that header with
    [song_layers] set to 1. *)
Theorem new_file_saved_and_read (h : Header) :
  header_fits (set_song_layers h 1) ->
  exists out,
    save (new_file h) = (Ok tt, out)
    /\ read_file out = (Ok (new_file (set_song_layers h 1)), []).
Proof.
  intros F.
  assert (storable (new_file h)) as S.
  { unfold storable. split; [exact F|]. split; [exact I|]. split.
    - constructor; [|constructor].
      split; [split; [constructor|cbn; lia]|].
      split; unfold signed_byte; cbn; lia.
    - split; [cbn; auto|]. split; [constructor|].
      split; [exact I|cbn; lia]. }
  destruct (storable_saved _ S) as (out & W & R). eauto.
Qed.

Lemma new_file_saved_and_read_witness :
  exists out,
    save (new_file default_header) = (Ok tt, out)
    /\ read_file out = (Ok (new_file (set_song_layers default_header 1)), []).
Proof.
  apply (new_file_saved_and_read default_header).
  destruct song_storable as (H & _).
  unfold header_fits, tempo_stored, plain, ascii, signed_byte, signed_int.
  repeat match goal with
         | |- _ /\ _ => split
         | |- exists raw, _ => exists 1000
         | |- Forall _ _ => repeat constructor
         end;
    cbn; try reflexivity; try discriminate; try lia.
Defined.

(** ** The tempo *)

Lemma all_from_spec (n : nat) (z : Z) (p : Z -> bool) :
  all_from n z p = true ->
  forall k, z <= k < z + Z.of_nat n -> p k = true.
Proof.
  revert z. induction n as [|n IH]; intros z H k R; [lia|].
  cbn [all_from] in H. apply andb_true_iff in H as (H0 & H1).
  destruct (Z.eq_dec k z) as [->|N]; [exact H0|].
  apply (IH (z + 1) H1). lia.
Qed.

Lemma tempo_close_all :
  all_from (Z.to_nat 65536) (-32768) tempo_close = true.
Proof. vm_compute. reflexivity. Qed.

(** X16.  The tempo of a decoded header is a stored 16-bit integer
    divided by 100, and [write_header] always encodes it again: the
    integer it writes, [int(tempo * 100)], is the stored one or the next
    one towards zero -- the latter happens, as for 29, written back as
    28. *)
Theorem decoded_tempo_reencoded :
  (forall buf rest h,
      parse_header buf = (Ok h, rest) ->
      exists raw raw',
        tempo h = PrimFloat.div (float_of_int raw) (float_of_int 100)
        /\ min_value SHORT <= raw <= max_value SHORT
        /\ int_of_float (PrimFloat.mul (tempo h) (float_of_int 100))
           = Ok raw'
        /\ Z.abs raw' <= Z.abs raw /\ Z.abs (raw - raw') <= 1)
  /\ tempo_reencoded 29 = Ok 28.
Proof.
  split; [|reflexivity].
  intros buf rest h H. unfold parse_header in H.
  apply bind_ok in H as (marker & b0 & _ & H).
  destruct (negb (marker =? 0)); [discriminate|].
  unfold header_fields in H.
  do 8 (apply bind_ok in H; destruct H as (? & ? & _ & H)).
  apply bind_ok in H as (raw & b9 & R & H).
  do 9 (apply bind_ok in H; destruct H as (? & ? & _ & H)).
  injection H as <- _. cbn [tempo].
  apply read_numeric_range in R.
  pose proof (all_from_spec _ _ _ tempo_close_all raw) as C.
  assert (min_value SHORT = -32768) as E1 by reflexivity.
  assert (max_value SHORT = 32767) as E2 by reflexivity.
  rewrite Z2Nat.id in C by lia.
  specialize (C ltac:(lia)). unfold tempo_close in C.
  destruct (tempo_reencoded raw) as [raw'|e] eqn:T; [|discriminate].
  apply andb_true_iff in C as (C1 & C2).
  apply Z.leb_le in C1, C2.
  exists raw, raw'. repeat split; try lia. exact T.
Qed.

(** ** Bytes after a document *)

Lemma extends_ret {A : Type} (m : bool) (a : A) : extends m (ret a).
Proof. intros s a' r [= <- <-]. left. reflexivity. Qed.

Lemma extends_raise {A : Type} (m : bool) (e : error) :
  extends m (@raise A e).
Proof. intros s a r; discriminate. Qed.

Lemma extends_bind {A B : Type} (m1 m2 : bool) (p : Parser A)
      (k : A -> Parser B) :
  extends m1 p ->
  (forall a, extends m2 (k a)) ->
  (m1 = true -> forall a, on_empty m2 (k a)) ->
  extends m2 (bind p k).
Proof.
  intros Hp Hk He s b r H.
  apply bind_ok in H as (a & r1 & P & K).
  destruct (Hp s a r1 P) as [Sp|(M & ->)].
  - destruct (Hk a r1 b r K) as [Sk|St]; [|now right].
    left. intros x. unfold bind. rewrite Sp. apply Sk.
  - right. specialize (He M a). unfold on_empty in He.
    rewrite K in He. exact He.
Qed.

Lemma extends_numeric (fmt : Struct) : extends false (read_numeric fmt).
Proof.
  intros s v r H. left. intros x.
  apply read_numeric_ok in H as (bs & -> & P).
  rewrite <- app_assoc. now apply read_numeric_app.
Qed.

Lemma extends_string : extends true read_string.
Proof.
  intros s a r H. unfold read_string in H.
  apply bind_ok in H as (len & s1 & R & H).
  apply bind_ok in H as (data & s2 & D & H).
  unfold lift in H. injection H as H <-.
  unfold read in D.
  destruct (Z.ltb_spec len (-1)); [discriminate|].
  destruct (Z.eqb_spec len (-1)); [injection D as <- <-; now right|].
  injection D as <- <-.
  destruct (Nat.le_gt_cases (Z.to_nat len) (length s1)) as [G|G].
  - left. intros x. unfold read_string, bind.
    destruct (extends_numeric INT s len s1 R) as [E|(N & _)];
      [|discriminate].
    rewrite E. unfold read, lift.
    destruct (Z.ltb_spec len (-1)); [lia|].
    destruct (Z.eqb_spec len (-1)); [lia|].
    rewrite firstn_app, skipn_app.
    replace (Z.to_nat len - length s1)%nat with 0%nat by lia.
    cbn [firstn skipn]. now rewrite app_nil_r, H.
  - right. split; [reflexivity|]. apply skipn_all2. lia.
Qed.

Ltac extends_after_numeric :=
  eapply (extends_bind false);
  [ apply extends_numeric | intros ? | discriminate ].

Ltac extends_after_string :=
  eapply (extends_bind true);
  [ apply extends_string | intros ? | intros _ ?; on_empty_next ].

Lemma extends_jump_next (value : Z) : extends false (jump_next value).
Proof.
  unfold jump_next. extends_after_numeric.
  match goal with |- context [?a =? 0] => destruct (a =? 0) end;
    apply extends_ret.
Qed.

Lemma extends_read_note (t l : Z) : extends false (read_note t l).
Proof.
  unfold read_note. do 2 extends_after_numeric. apply extends_ret.
Qed.

Lemma extends_strict {A : Type} (p : Parser A) (s r x : buffer) (a : A) :
  extends false p -> p s = (Ok a, r) -> p (s ++ x) = (Ok a, r ++ x).
Proof.
  intros Hp P. destruct (Hp s a r P) as [E|(N & _)]; [apply E|discriminate].
Qed.

Lemma parse_chord_extends (fuel : nat) (current_tick value : Z)
      (s r x : buffer) (ys : list Note) :
  parse_chord fuel current_tick value s = Some (ys, Ok tt, r) ->
  parse_chord fuel current_tick value (s ++ x) = Some (ys, Ok tt, r ++ x).
Proof.
  revert value s r ys.
  induction fuel as [|fuel IH]; intros value s r ys H; [discriminate|].
  cbn [parse_chord] in *.
  destruct (jump_next value s) as [[[l|]|e] r1] eqn:J; [| |discriminate].
  - rewrite (extends_strict _ _ _ x _ (extends_jump_next value) J).
    destruct (read_note current_tick l r1) as [[n|e] r2] eqn:R;
      [|discriminate].
    rewrite (extends_strict _ _ _ x _ (extends_read_note current_tick l) R).
    destruct (parse_chord fuel current_tick l r2) as [[[ys2 e2] b2]|] eqn:C;
      [|discriminate].
    injection H as <- -> <-. now rewrite (IH _ _ _ _ C).
  - rewrite (extends_strict _ _ _ x _ (extends_jump_next value) J).
    now injection H as <- <-.
Qed.

Lemma parse_ticks_extends (fuel : nat) (value : Z) (s r x : buffer)
      (ys : list Note) :
  parse_ticks fuel value s = Some (ys, Ok tt, r) ->
  parse_ticks fuel value (s ++ x) = Some (ys, Ok tt, r ++ x).
Proof.
  revert value s r ys.
  induction fuel as [|fuel IH]; intros value s r ys H; [discriminate|].
  cbn [parse_ticks] in *.
  destruct (jump_next value s) as [[[tk|]|e] r1] eqn:J; [| |discriminate].
  - rewrite (extends_strict _ _ _ x _ (extends_jump_next value) J).
    destruct (parse_chord fuel tk (-1) r1) as [[[ys1 [[]|e1]] r2]|] eqn:C;
      [|discriminate|discriminate].
    rewrite (parse_chord_extends _ _ _ _ _ x _ C).
    destruct (parse_ticks fuel tk r2) as [[[ys2 e2] b2]|] eqn:T;
      [|discriminate].
    injection H as <- -> <-. now rewrite (IH _ _ _ _ T).
  - rewrite (extends_strict _ _ _ x _ (extends_jump_next value) J).
    now injection H as <- <-.
Qed.

Lemma extends_parse_notes : extends false (list_of parse_notes).
Proof.
  intros s ys r H. left. intros x. unfold list_of in H |- *.
  pose proof (parse_notes_some s) as P.
  destruct (parse_notes s) as [[ys0 [[]|e]] r0]; [|discriminate].
  injection H as -> ->.
  now rewrite (parse_notes_is _ _ _ (parse_ticks_extends _ _ _ _ x _ P)).
Qed.

Lemma extends_parse_header : extends true parse_header.
Proof.
  unfold parse_header. eapply (extends_bind false);
    [ apply extends_numeric | intros marker | discriminate ].
  destruct (negb (marker =? 0)); [apply extends_raise|].
  unfold header_fields.
  do 4 extends_after_numeric. do 4 extends_after_string.
  do 9 extends_after_numeric. extends_after_string. apply extends_ret.
Qed.

Lemma extends_parse_layers (count : nat) (i : Z) :
  extends false (parse_layers_from i count).
Proof.
  revert i. induction count as [|count IH]; intros i;
    cbn [parse_layers_from]; [apply extends_ret|].
  extends_after_string. do 2 extends_after_numeric.
  eapply (extends_bind false);
    [ apply IH | intros ?; apply extends_ret | discriminate ].
Qed.

Lemma extends_parse_instruments : extends false parse_instruments.
Proof.
  unfold parse_instruments. extends_after_numeric.
  generalize 0 at 1.
  match goal with |- context [Z.to_nat ?c] => generalize (Z.to_nat c) end.
  intros count. induction count as [|count IH]; intros i;
    cbn [parse_instruments_from]; [apply extends_ret|].
  do 2 extends_after_string. do 2 extends_after_numeric.
  eapply (extends_bind false);
    [ apply IH | intros ?; apply extends_ret | discriminate ].
Qed.

Lemma extends_read_file : extends false read_file.
Proof.
  unfold read_file. eapply (extends_bind true);
    [ apply extends_parse_header | intros h | intros _ h ].
  - unfold read_sections.
    eapply (extends_bind false);
      [ apply extends_parse_notes | intros ? | discriminate ].
    eapply (extends_bind false);
      [ apply extends_parse_layers | intros ? | discriminate ].
    eapply (extends_bind false);
      [ apply extends_parse_instruments | intros ?; apply extends_ret
      | discriminate ].
  - unfold read_sections. apply on_empty_bind. reflexivity.
Qed.

(** X17.  [read_file] reads a document and stops: whatever bytes follow
    the document in the stream are left unread and change nothing of the
    document returned. *)
Theorem bytes_after_document_unread (s r x : buffer) (f : File) :
  read_file s = (Ok f, r) -> read_file (s ++ x) = (Ok f, r ++ x).
Proof. apply extends_strict, extends_read_file. Qed.

Lemma bytes_after_document_unread_witness :
  read_file (accented_stream ++ [x2a; x2b])
  = (Ok (mkFile (mkHeader 3 16 0 0 e_acute [] [] [] 10%float false 10 4
                   0 0 0 0 0 [])
                [] [] []),
     [] ++ [x2a; x2b]).
Proof.
  apply (bytes_after_document_unread accented_stream [] [x2a; x2b]).
  vm_compute. reflexivity.
Defined.

Lemma decoded_tempo_reencoded_witness :
  exists raw raw',
    tempo slow_header = PrimFloat.div (float_of_int raw) (float_of_int 100)
    /\ min_value SHORT <= raw <= max_value SHORT
    /\ int_of_float (PrimFloat.mul (tempo slow_header) (float_of_int 100))
       = Ok raw'
    /\ Z.abs raw' <= Z.abs raw /\ Z.abs (raw - raw') <= 1.
Proof.
  apply (proj1 decoded_tempo_reencoded slow_stream [] slow_header).
  vm_compute. reflexivity.
Defined.

(** ** What every decoded document satisfies *)

Lemma parse_header_in_range (buf rest : buffer) (h : Header) :
  parse_header buf = (Ok h, rest) -> header_in_range h.
Proof.
  unfold parse_header. intros H.
  apply bind_ok in H as (marker & b0 & _ & H).
  destruct (negb (marker =? 0)); [discriminate|].
  unfold header_fields in H.
  apply bind_ok in H as (v1 & b1 & R1 & H).
  apply bind_ok in H as (v2 & b2 & R2 & H).
  apply bind_ok in H as (v3 & b3 & R3 & H).
  apply bind_ok in H as (v4 & b4 & R4 & H).
  do 4 (apply bind_ok in H; destruct H as (? & ? & _ & H)).
  apply bind_ok in H as (v9 & b9 & _ & H).
  apply bind_ok in H as (v10 & b10 & _ & H).
  apply bind_ok in H as (v11 & b11 & R11 & H).
  apply bind_ok in H as (v12 & b12 & R12 & H).
  apply bind_ok in H as (v13 & b13 & R13 & H).
  apply bind_ok in H as (v14 & b14 & R14 & H).
  apply bind_ok in H as (v15 & b15 & R15 & H).
  apply bind_ok in H as (v16 & b16 & R16 & H).
  apply bind_ok in H as (v17 & b17 & R17 & H).
  apply bind_ok in H as (v18 & b18 & _ & H).
  injection H as <- _.
  apply read_numeric_range in R1, R2, R3, R4, R11, R12, R13, R14, R15, R16,
    R17.
  unfold header_in_range, signed_byte, signed_int. cbn.
  change (min_value BYTE) with (-128) in *.
  change (max_value BYTE) with 127 in *. tauto.
Qed.

(** X18.  In every document that [read_file] returns, the numeric fields
    of the header are in the ranges of their formats, there are as many
    layers as the stored [song_layers] says (none if it is negative) and at
    most 127 instruments, both numbered by position from 0; so
    [update_header] on a decoded document changes [song_layers] only when
    the stored count was negative. *)
Theorem decoded_document_counts (buf rest : buffer) (f : File) :
  read_file buf = (Ok f, rest) ->
  header_in_range (header f)
  /\ Z.of_nat (length (layers f)) = Z.max 0 (song_layers (header f))
  /\ map layer_id (layers f) = positions 0 (length (layers f))
  /\ (length (instruments f) <= 127)%nat
  /\ map instrument_id (instruments f)
     = positions 0 (length (instruments f))
  /\ song_layers (header (update_header f))
     = Z.max 0 (song_layers (header f)).
Proof.
  unfold read_file, read_sections. intros H.
  apply bind_ok in H as (h & b1 & Hh & H).
  apply bind_ok in H as (ns & b2 & _ & H).
  apply bind_ok in H as (ls & b3 & Hl & H).
  apply bind_ok in H as (ins & b4 & Hi & H).
  injection H as <- _. cbn [header layers instruments].
  apply parse_header_in_range in Hh.
  unfold parse_layers in Hl.
  apply parse_layers_from_numbers in Hl as (Ll & Ml & _).
  unfold parse_instruments in Hi.
  apply bind_ok in Hi as (count & b5 & Hc & Hi).
  apply parse_instruments_from_numbers in Hi as (Li & Mi & _).
  apply read_numeric_range in Hc.
  assert (max_value BYTE = 127) as E by reflexivity.
  assert (Z.of_nat (length ls) = Z.max 0 (song_layers h)) as C
      by (rewrite Ll; lia).
  split; [exact Hh|]. split; [exact C|].
  split; [now rewrite Ll|]. split; [lia|]. split; [now rewrite Li|].
  unfold update_header. cbn [layers header]. cbn. exact C.
Qed.

Lemma decoded_document_counts_witness :
  header_in_range (header (update_header song))
  /\ Z.of_nat (length (layers (update_header song)))
     = Z.max 0 (song_layers (header (update_header song)))
  /\ map layer_id (layers (update_header song))
     = positions 0 (length (layers (update_header song)))
  /\ (length (instruments (update_header song)) <= 127)%nat
  /\ map instrument_id (instruments (update_header song))
     = positions 0 (length (instruments (update_header song)))
  /\ song_layers (header (update_header (update_header song)))
     = Z.max 0 (song_layers (header (update_header song))).
Proof.
  apply (decoded_document_counts (snd (save song)) []).
  vm_compute. reflexivity.
Defined.

Lemma update_header_twice (f : File) :
  update_header (update_header f) = update_header f.
Proof.
  destruct f as [h ns ls ins]. unfold update_header. cbn.
  destruct ns as [|n ns]; cbn; destruct h; reflexivity.
Qed.

(** X19.  Loading a saved document and saving it again writes the same
    bytes: for a document that the format can hold, [save] of what
    [read_file] returns on the bytes of [save] is those bytes. *)
Theorem saved_loaded_saved (f : File) :
  storable f ->
  exists out f',
    save f = (Ok tt, out)
    /\ read_file out = (Ok f', [])
    /\ save f' = (Ok tt, out).
Proof.
  intros S. destruct (storable_saved f S) as (out & W & R).
  exists out, (update_header f). repeat split; try assumption.
  unfold save in *. now rewrite update_header_twice.
Qed.

Lemma saved_loaded_saved_witness :
  exists out f',
    save song = (Ok tt, out)
    /\ read_file out = (Ok f', [])
    /\ save f' = (Ok tt, out).
Proof. exact (saved_loaded_saved song song_storable). Defined.
